(** * Atomic fetch-max / fetch-min (WG21 P0493 reference implementations)

    A shallow embedding of [src/fetch_max.hpp] (the strategy-parameterised
    [atomic_fetch_max<type_e>] family) and of [src/atomic_maxmin_arm.hpp]
    (the AArch64 entry points [atomic_fetch_max_explicit] and
    [atomic_fetch_min_explicit]).

    The C++ functions act on one [std::atomic<T>] through [load],
    [compare_exchange_weak], [fetch_add] and inline assembly.  They are
    embedded as computations in a small state monad whose state holds
      - the value of the atomic object,
      - a schedule: what the rest of the machine does just before each of
        our atomic operations (a store by another thread, a spurious failure
        of the weak compare-and-swap),
      - the log of the atomic operations performed so far, each with the
        memory ordering it was given.
    Retry loops recurse on fuel; the termination lemmas show how much fuel a
    schedule needs. *)

From Stdlib Require Import ZArith String Ascii Bool List Lia Permutation.
Import ListNotations.
Local Open Scope Z_scope.

(** ** std::memory_order

    [memory_order] is an enumeration whose objects can hold any value of the
    underlying integer type; [DEF0] in the source has an explicit branch for
    a value that is none of the six enumerators.  The enumerators are
    numbered in the order of their declaration in <atomic>. *)

Definition memory_order := Z.

Definition memory_order_relaxed : memory_order := 0.
Definition memory_order_consume : memory_order := 1.
Definition memory_order_acquire : memory_order := 2.
Definition memory_order_release : memory_order := 3.
Definition memory_order_acq_rel : memory_order := 4.
Definition memory_order_seq_cst : memory_order := 5.

Definition enumerators : list memory_order :=
  [memory_order_relaxed; memory_order_consume; memory_order_acquire;
   memory_order_release; memory_order_acq_rel; memory_order_seq_cst].

(** [m] is one of the six enumerators. *)
Definition is_enumerator (m : memory_order) : bool :=
  existsb (Z.eqb m) enumerators.

(** atomic_maxmin_arm.hpp, [load_order]. *)
Definition load_order (m : memory_order) : memory_order :=
  if m =? memory_order_release then memory_order_relaxed
  else if m =? memory_order_acq_rel then memory_order_acquire
  else m.

(** What <atomic> requires of the ordering given to [load]. *)
Definition legal_for_load (m : memory_order) : bool :=
  negb (m =? memory_order_release) && negb (m =? memory_order_acq_rel).

(** ** Scalar types

    What the templates ask of [T]: the traits [std::is_integral<T>],
    [std::is_signed<T>] and [sizeof(T)], [operator<] (through [std::max] and
    [std::min]), equality (the [!=] of the loops and the comparison made by
    compare-and-swap), and the object representation that the inline
    assembly reads and writes, as an unsigned number of [8 * sizeof] bits. *)

Class Scalar (T : Type) : Type := {
  is_integral : bool;
  is_signed   : bool;
  sizeof      : Z;
  less        : T -> T -> bool;
  equal       : T -> T -> bool;
  to_bits     : T -> Z;
  of_bits     : Z -> T
}.

(** [atomic<T>::fetch_add] exists for the arithmetic types only;
    [plus t k] is the value stored by [fetch_add(k)] over [t]. *)
Class FetchAdd (T : Type) : Type := {
  plus : T -> Z -> T
}.

(** The two's complement reading of an [n]-bit pattern. *)
Definition SInt (n x : Z) : Z := if x <? 2 ^ (n - 1) then x else x - 2 ^ n.

(** The integer types: a value is the mathematical integer it denotes. *)
Definition int_scalar (sg : bool) (bytes : Z) : Scalar Z := {|
  is_integral := true;
  is_signed   := sg;
  sizeof      := bytes;
  less        := Z.ltb;
  equal       := Z.eqb;
  to_bits x   := x mod 2 ^ (8 * bytes);
  of_bits b   := let u := b mod 2 ^ (8 * bytes) in
                 if sg then SInt (8 * bytes) u else u
|}.

(** Integer [fetch_add] wraps around, for signed types too. *)
Definition int_fetch_add (sg : bool) (bytes : Z) : FetchAdd Z := {|
  plus t k := @of_bits Z (int_scalar sg bytes) (t + k)
|}.

Definition in_range (sg : bool) (bytes : Z) (x : Z) : Prop :=
  if sg then - 2 ^ (8 * bytes - 1) <= x < 2 ^ (8 * bytes - 1)
  else 0 <= x < 2 ^ (8 * bytes).

Definition int32_t : Scalar Z := int_scalar true 4.

(** fetch_max.hpp, [enum class type_e : std::size_t]. *)
Inductive type_e : Set := strong | weak | smart | hardware.

Definition type_e_value (i : type_e) : Z :=
  match i with strong => 0 | weak => 1 | smart => 2 | hardware => 3 end.

Definition type_e_of_value (z : Z) : type_e :=
  if z =? 0 then strong else if z =? 1 then weak
  else if z =? 2 then smart else hardware.

(** fetch_max.hpp, [format]. *)
Definition format (i : type_e) : string :=
  match i with
  | strong => "strong"
  | weak => "weak"
  | smart => "smart"
  | hardware => "hardware"
  end.

(** An enumeration is a scalar that is not integral: [atomic<type_e>] takes
    the compare-and-swap branch of the AArch64 entry points. *)
Definition type_e_scalar : Scalar type_e := {|
  is_integral := false;
  is_signed   := false;
  sizeof      := 8;
  less a b    := type_e_value a <? type_e_value b;
  equal a b   := type_e_value a =? type_e_value b;
  to_bits a   := type_e_value a;
  of_bits b   := type_e_of_value b
|}.

(** Pointers to objects of [elem] bytes: a scalar that is not integral and
    has [fetch_add], which moves by whole objects. *)
Definition pointer_scalar : Scalar Z := {|
  is_integral := false;
  is_signed   := false;
  sizeof      := 8;
  less        := Z.ltb;
  equal       := Z.eqb;
  to_bits p   := p mod 2 ^ 64;
  of_bits b   := b mod 2 ^ 64
|}.

Definition pointer_fetch_add (elem : Z) : FetchAdd Z := {|
  plus p k := p + k * elem
|}.

(** ** How a call ends *)

Inductive outcome (A : Type) : Type :=
| Returned (a : A)
| AssertionFailed   (* [assert] failed: the process is aborted *)
| Undefined         (* [__builtin_unreachable()] was reached, or an
                       indeterminate value was read *)
| OutOfFuel.        (* the retry loop was still running when the fuel ended *)

Arguments Returned {A} a.
Arguments AssertionFailed {A}.
Arguments Undefined {A}.
Arguments OutOfFuel {A}.

(** The build: [NDEBUG] turns [assert] into nothing, [__ARM_ARCH_8A] selects
    the body of [atomic_fetch_max<type_e::hardware>]. *)
Record build : Set := {
  NDEBUG : bool;
  ARM_ARCH_8A : bool
}.

(** ** The Large System Extension instructions named by the source

    LDSMAX, LDUMAX, LDSMIN, LDUMIN with their ordering suffixes (none, A, L,
    AL) and size suffixes (none, H, B), as the Arm architecture defines
    them: the instruction loads [datasize] bits, stores back the larger or
    smaller of the loaded bits and the low bits of the source register, and
    leaves the loaded bits, zero-extended, in the destination register. *)

Record lse_insn : Set := {
  i_signed   : bool;
  i_max      : bool;
  i_acquire  : bool;
  i_release  : bool;
  i_datasize : Z
}.

Definition lse_mnemonic (sg mx aq rl : bool) (sz : string) : string :=
  ("ld" ++ (if sg then "s" else "u") ++ (if mx then "max" else "min")
        ++ (if aq then "a" else "") ++ (if rl then "l" else "") ++ sz)%string.

(** Mnemonic, register class of the operands, instruction. *)
Definition lse_forms (sg mx aq rl : bool) : list (string * string * lse_insn) :=
  [ (lse_mnemonic sg mx aq rl "",  "x"%string, Build_lse_insn sg mx aq rl 64);
    (lse_mnemonic sg mx aq rl "",  "w"%string, Build_lse_insn sg mx aq rl 32);
    (lse_mnemonic sg mx aq rl "h", "w"%string, Build_lse_insn sg mx aq rl 16);
    (lse_mnemonic sg mx aq rl "b", "w"%string, Build_lse_insn sg mx aq rl 8) ].

Definition lse_table : list (string * string * lse_insn) :=
  flat_map (fun sg => flat_map (fun mx => flat_map (fun aq => flat_map (fun rl =>
    lse_forms sg mx aq rl) [false; true]) [false; true]) [false; true])
    [false; true].

(** The text up to the first blank, and the text after it. *)
Fixpoint split_blank (s : string) : string * string :=
  match s with
  | EmptyString => (EmptyString, EmptyString)
  | String c rest =>
      if Ascii.eqb c " "%char then (EmptyString, rest)
      else let (a, b) := split_blank rest in (String c a, b)
  end.

(** The operand lists the assembler model understands: source register is
    operand 1, destination register operand 0, address operand 2. *)
Definition operand_class (operands : string) : option string :=
  if String.eqb operands "%w1,%w0,[%2]" then Some "w"%string
  else if String.eqb operands "%x1,%x0,[%2]" then Some "x"%string
  else None.

Definition assemble (template : string) : option lse_insn :=
  let (mn, operands) := split_blank template in
  match operand_class operands with
  | None => None
  | Some rs =>
      match find (fun e => String.eqb (fst (fst e)) mn && String.eqb (snd (fst e)) rs)
                 lse_table with
      | Some e => Some (snd e)
      | None => None
      end
  end.

(** The value the instruction stores, from the loaded bits and the low bits
    of the source register. *)
Definition lse_result (i : lse_insn) (data value : Z) : Z :=
  let key x := if i_signed i then SInt (i_datasize i) x else x in
  if i_max i
  then (if key data >? key value then data else value)
  else (if key data >? key value then value else data).

(** ** The atomic object and the monad of calls *)

Module Atomic.
Section Ops.
Context {T : Type} `{Scalar T}.

(** What the rest of the machine does just before one of our atomic
    operations: another thread's store lands ([intrusion]), and a weak
    compare-and-swap that could succeed fails all the same ([spurious]). *)
Record tick : Type := {
  intrusion : option T;
  spurious  : bool
}.

Inductive event : Type :=
| EvLoad (m : memory_order) (seen : T)
| EvCas (success failure : memory_order) (expected desired : T) (ok : bool)
| EvFetchAdd (k : Z) (m : memory_order) (before after : T)
| EvAsm (template : string) (before after : T).

Record world : Type := {
  cell  : T;
  sched : list tick;
  log   : list event
}.

Definition M (A : Type) : Type := world -> outcome (A * world).

Definition ret {A} (a : A) : M A := fun w => Returned (a, w).

Definition bind {A B} (c : M A) (k : A -> M B) : M B :=
  fun w =>
    match c w with
    | Returned (a, w1) => k a w1
    | AssertionFailed => AssertionFailed
    | Undefined => Undefined
    | OutOfFuel => OutOfFuel
    end.

(** [assert(c)] of <cassert>. *)
Definition assert_ (cfg : build) (c : bool) : M unit :=
  fun w => if c || NDEBUG cfg then Returned (tt, w) else AssertionFailed.

(** [__builtin_unreachable()]. *)
Definition builtin_unreachable {A} : M A := fun _ => Undefined.

(** Reading a local that may never have been assigned. *)
Definition read_local (x : option T) : M T :=
  match x with Some a => ret a | None => fun _ => Undefined end.

(** The next tick of the schedule takes place; an exhausted schedule is
    quiet. *)
Definition arrive (w : world) : bool * world :=
  match sched w with
  | [] => (false, w)
  | tk :: rest =>
      (spurious tk,
       {| cell := match intrusion tk with Some u => u | None => cell w end;
          sched := rest;
          log := log w |})
  end.

Definition record (e : event) (w : world) : world :=
  {| cell := cell w; sched := sched w; log := log w ++ [e] |}.

Definition store (u : T) (w : world) : world :=
  {| cell := u; sched := sched w; log := log w |}.

(** [pv->load(m)]. *)
Definition load (m : memory_order) : M T :=
  fun w =>
    let (_, w1) := arrive w in
    Returned (cell w1, record (EvLoad m (cell w1)) w1).

(** [pv->compare_exchange_weak(expected, desired, success, failure)]: the
    result and the new value of the reference argument [expected]. *)
Definition compare_exchange_weak (expected desired : T)
           (success failure : memory_order) : M (bool * T) :=
  fun w =>
    let (sp, w1) := arrive w in
    if equal (cell w1) expected && negb sp
    then Returned ((true, expected),
                   record (EvCas success failure expected desired true)
                          (store desired w1))
    else Returned ((false, cell w1),
                   record (EvCas success failure expected desired false) w1).

(** [pv->fetch_add(k, m)]. *)
Definition fetch_add `{FetchAdd T} (k : Z) (m : memory_order) : M T :=
  fun w =>
    let (_, w1) := arrive w in
    let old := cell w1 in
    Returned (old, record (EvFetchAdd k m old (plus old k)) (store (plus old k) w1)).

(** [__asm__ __volatile__(template : "=r"(x) : "r"(v), "r"(pv) :)]: the
    new value of [x]. *)
Definition asm_volatile (template : string) (v : T) : M T :=
  fun w =>
    let (_, w1) := arrive w in
    match assemble template with
    | None => Undefined
    | Some i =>
        let n := i_datasize i in
        if n >? 8 * sizeof then Undefined
        else
          let bits := to_bits (cell w1) in
          let data := bits mod 2 ^ n in
          let value := to_bits v mod 2 ^ n in
          let after := of_bits (bits - data + lse_result i data value) in
          Returned (of_bits data,
                    record (EvAsm template (cell w1) after) (store after w1))
    end.

(** [std::max(a, b)] and [std::min(a, b)] of <algorithm>. *)
Definition std_max (a b : T) : T := if less a b then b else a.
Definition std_min (a b : T) : T := if less b a then b else a.

End Ops.

Arguments tick T : clear implicits.
Arguments event T : clear implicits.
Arguments world T : clear implicits.
Arguments M T A : clear implicits.

End Atomic.

Import Atomic.

Declare Scope call_scope.
Delimit Scope call_scope with call.
Notation "x <- c ;; k" := (bind c (fun x => k))
  (at level 61, c at next level, right associativity) : call_scope.
Notation "' p <- c ;; k" := (bind c (fun p => k))
  (at level 61, p pattern, c at next level, right associativity) : call_scope.
Local Open Scope call_scope.

(** ** fetch_max.hpp: the strategies *)

Section Strategies.
Context {T : Type} `{Scalar T}.

(** [while (!pv->compare_exchange_weak(t, desired(t), m, m)) ;] and the
    value of [t] after it. *)
Fixpoint retry (fuel : nat) (desired : T -> T) (t : T) (m : memory_order)
  : M T T :=
  match fuel with
  | O => fun _ => OutOfFuel
  | S fuel' =>
      '(ok, t1) <- compare_exchange_weak t (desired t) m m ;;
      if ok then ret t1 else retry fuel' desired t1 m
  end.

(** [atomic_fetch_max<type_e::strong>::operator()]. *)
Definition atomic_fetch_max_strong (fuel : nat) (v : T) (m : memory_order)
  : M T T :=
  t <- load m ;;
  t <- retry fuel (fun t => std_max v t) t m ;;
  ret t.

(** The loop of [atomic_fetch_max<type_e::weak>] and the value of [t] after
    it; [break] and a false loop condition both lead to [return t]. *)
Fixpoint weak_loop (fuel : nat) (v t : T) (m : memory_order) : M T T :=
  match fuel with
  | O => fun _ => OutOfFuel
  | S fuel' =>
      if negb (equal (std_max v t) t) then
        '(ok, t1) <- compare_exchange_weak t v m m ;;
        if ok then ret t1 else weak_loop fuel' v t1 m
      else ret t
  end.

(** [atomic_fetch_max<type_e::weak>::operator()]. *)
Definition atomic_fetch_max_weak (fuel : nat) (v : T) (m : memory_order)
  : M T T :=
  t <- load m ;;
  t <- weak_loop fuel v t m ;;
  ret t.

(** The loop of [atomic_fetch_max<type_e::smart>]: [inl t] when the function
    returns [t] from inside the loop, [inr t] when the loop condition fails
    with [t]. *)
Fixpoint smart_loop (fuel : nat) (v t : T) (m : memory_order)
  : M T (T + T) :=
  match fuel with
  | O => fun _ => OutOfFuel
  | S fuel' =>
      if negb (equal (std_max v t) t) then
        '(ok, t1) <- compare_exchange_weak t v m m ;;
        if ok then ret (inl t1) else smart_loop fuel' v t1 m
      else ret (inr t)
  end.

(** [atomic_fetch_max<type_e::smart>::operator()]. *)
Definition atomic_fetch_max_smart `{FetchAdd T}
           (fuel : nat) (v : T) (m : memory_order) : M T T :=
  t <- load m ;;
  r <- smart_loop fuel v t m ;;
  match r with
  | inl t => ret t
  | inr t =>
      _ <- (if (m =? memory_order_release) ||
               (m =? memory_order_acq_rel) ||
               (m =? memory_order_seq_cst)
            then _ <- fetch_add 0 m ;; ret tt
            else ret tt) ;;
      ret t
  end.

End Strategies.

(** [atomic_fetch_max<type_e::hardware>::operator()], declared for
    [std::atomic<int>] only. *)
Definition atomic_fetch_max_hardware (cfg : build) (v : Z) (m : memory_order)
  : M Z Z :=
  let _ : Scalar Z := int32_t in
  if ARM_ARCH_8A cfg then
    x <- (if m =? memory_order_relaxed
          then asm_volatile "ldsmax %w1,%w0,[%2]" v
          else if m =? memory_order_release
          then asm_volatile "ldsmaxl %w1,%w0,[%2]" v
          else if (m =? memory_order_acquire) || (m =? memory_order_consume)
          then asm_volatile "ldsmaxa %w1,%w0,[%2]" v
          else if (m =? memory_order_acq_rel) || (m =? memory_order_seq_cst)
          then asm_volatile "ldsmaxal %w1,%w0,[%2]" v
          else builtin_unreachable) ;;
    ret x
  else builtin_unreachable.

(** ** atomic_maxmin_arm.hpp *)

Section Arm.
Context {T : Type} `{Scalar T}.
Variable cfg : build.

(** The macro [DEF0(op, sz, rs)]: the new value of the local [x]. *)
Definition DEF0 (op sz rs : string) (v : T) (m : memory_order)
           (x : option T) : M T (option T) :=
  if m =? memory_order_relaxed then
    r <- asm_volatile (op ++ sz ++ " %" ++ rs ++ "1,%" ++ rs ++ "0,[%2]") v ;;
    ret (Some r)
  else if m =? memory_order_release then
    r <- asm_volatile (op ++ "l" ++ sz ++ " %" ++ rs ++ "1,%" ++ rs ++ "0,[%2]") v ;;
    ret (Some r)
  else if (m =? memory_order_acquire) || (m =? memory_order_consume) then
    r <- asm_volatile (op ++ "a" ++ sz ++ " %" ++ rs ++ "1,%" ++ rs ++ "0,[%2]") v ;;
    ret (Some r)
  else if (m =? memory_order_acq_rel) || (m =? memory_order_seq_cst) then
    r <- asm_volatile (op ++ "al" ++ sz ++ " %" ++ rs ++ "1,%" ++ rs ++ "0,[%2]") v ;;
    ret (Some r)
  else
    _ <- assert_ cfg false ;; ret x.

(** The macro [DEF1(op)]. *)
Definition DEF1 (op : string) (v : T) (m : memory_order) (x : option T)
  : M T (option T) :=
  if sizeof =? 8 then DEF0 op "" "x" v m x
  else if sizeof =? 4 then DEF0 op "" "w" v m x
  else if sizeof =? 2 then DEF0 op "h" "w" v m x
  else if sizeof =? 1 then DEF0 op "b" "w" v m x
  else _ <- assert_ cfg false ;; ret x.

(** The macro [DEF2(ls, op)]. *)
Definition DEF2 (ls op : string) (v : T) (m : memory_order) (x : option T)
  : M T (option T) :=
  if is_signed then DEF1 (ls ++ "s" ++ op) v m x
  else DEF1 (ls ++ "u" ++ op) v m x.

(** [atomic_fetch_max_explicit]. *)
Definition atomic_fetch_max_explicit (fuel : nat) (v : T) (m : memory_order)
  : M T T :=
  x <- (if is_integral then
          _ <- assert_ cfg ((sizeof =? 8) || (sizeof =? 4) ||
                            (sizeof =? 2) || (sizeof =? 1)) ;;
          DEF2 "ld" "max" v m None
        else
          x <- load (load_order m) ;;
          x <- retry fuel (fun x => std_max v x) x m ;;
          ret (Some x)) ;;
  read_local x.

(** [atomic_fetch_min_explicit]. *)
Definition atomic_fetch_min_explicit (fuel : nat) (v : T) (m : memory_order)
  : M T T :=
  x <- (if is_integral then
          _ <- assert_ cfg ((sizeof =? 8) || (sizeof =? 4) ||
                            (sizeof =? 2) || (sizeof =? 1)) ;;
          DEF2 "ld" "min" v m None
        else
          x <- load (load_order m) ;;
          x <- retry fuel (fun x => std_min v x) x m ;;
          ret (Some x)) ;;
  read_local x.

End Arm.

(** ** Vocabulary of the statements *)

(** The laws of a scalar whose [operator<] is a strict total order and whose
    equality is identity of values: the integer, enumeration and pointer
    types. *)
Class Lawful (T : Type) `{Scalar T} : Prop := {
  equal_spec  : forall a b : T, equal a b = true <-> a = b;
  less_irrefl : forall a : T, less a a = false;
  less_total  : forall a b : T, less a b = false -> less b a = false -> a = b
}.

Section Observers.
Context {T : Type} `{Scalar T}.

(** A schedule without stores by other threads: the call runs alone.
    Spurious failures of the weak compare-and-swap remain possible. *)
Definition calm (s : list (tick T)) : bool :=
  forallb (fun tk => match intrusion tk with None => true | Some _ => false end) s.

(** The world after a call that ran alone: still alone, and no more
    schedule left than before. *)
Definition settled (w w' : world T) : Prop :=
  calm (sched w') = true /\ (length (sched w') <= length (sched w))%nat.

(** The value the next atomic operation will find in the object. *)
Definition observed (w : world T) : T := cell (snd (arrive w)).

(** Every value the object holds or will be given by another thread
    satisfies [valid]. *)
Definition inhabits (valid : T -> bool) (w : world T) : bool :=
  valid (cell w) &&
  forallb (fun tk => match intrusion tk with
                     | Some u => valid u
                     | None => true
                     end) (sched w).

(** The call returns the value the object held when it began and leaves
    [after] in the object. *)
Definition updates (call : M T T) (w : world T) (after : T) : Prop :=
  exists w', call w = Returned (cell w, w') /\ cell w' = after.

(** The events a call has added to the log of [w]. *)
Definition added (w w' : world T) : list (event T) :=
  skipn (length (log w)) (log w').

Definition is_cas (e : event T) : bool :=
  match e with EvCas _ _ _ _ _ => true | _ => false end.

Definition is_won_cas (e : event T) : bool :=
  match e with EvCas _ _ _ _ ok => ok | _ => false end.

Definition is_fetch_add (e : event T) : bool :=
  match e with EvFetchAdd _ _ _ _ => true | _ => false end.

(** The orderings given to [load], in the order of the calls. *)
Fixpoint load_orders (l : list (event T)) : list memory_order :=
  match l with
  | [] => []
  | EvLoad m _ :: rest => m :: load_orders rest
  | _ :: rest => load_orders rest
  end.

(** The value of the object, to an observer outside the program. *)
Definition peek : M T T := fun w => Returned (cell w, w).

(** A sequence of calls of one function on one object: the value of the
    object before and after each call. *)
Fixpoint run_calls (f : T -> memory_order -> M T T)
         (calls : list (T * memory_order)) : M T (list (T * T)) :=
  match calls with
  | [] => ret []
  | (v, m) :: rest =>
      before <- peek ;;
      _ <- f v m ;;
      after <- peek ;;
      history <- run_calls f rest ;;
      ret ((before, after) :: history)
  end.

(** The candidates never increase along the sequence. *)
Fixpoint non_increasing (vs : list T) : Prop :=
  match vs with
  | [] => True
  | a :: rest =>
      match rest with
      | [] => True
      | b :: _ => less a b = false
      end /\ non_increasing rest
  end.

End Observers.

(** The orderings under which the instruction must carry acquire, and
    release, semantics. *)
Definition wants_acquire (m : memory_order) : bool :=
  (m =? memory_order_acquire) || (m =? memory_order_consume) ||
  (m =? memory_order_acq_rel) || (m =? memory_order_seq_cst).

Definition wants_release (m : memory_order) : bool :=
  (m =? memory_order_release) ||
  (m =? memory_order_acq_rel) || (m =? memory_order_seq_cst).

(** The instruction the architecture-aware entry points must execute for an
    integer type of [bytes] bytes under ordering [m]. *)
Definition expected_insn (sg mx : bool) (m : memory_order) (bytes : Z)
  : lse_insn :=
  {| i_signed := sg; i_max := mx;
     i_acquire := wants_acquire m; i_release := wants_release m;
     i_datasize := 8 * bytes |}.

(** Two calls in a row on an [int32_t] object that holds 5, with candidates
    9 and 3 and relaxed ordering: the value returned and the value of the
    object after each call. *)
Definition calls_9_then_3 (f : Z -> memory_order -> M Z Z)
  : option (Z * Z * Z * Z) :=
  match f 9 memory_order_relaxed {| cell := 5; sched := []; log := [] |} with
  | Returned (r1, w1) =>
      match f 3 memory_order_relaxed w1 with
      | Returned (r2, w2) => Some (r1, cell w1, r2, cell w2)
      | _ => None
      end
  | _ => None
  end.

(** An object holding [c], a schedule, and an empty log. *)
Definition fresh {T : Type} (c : T) (s : list (tick T)) : world T :=
  {| cell := c; sched := s; log := [] |}.

Definition aarch64_build : build := {| NDEBUG := false; ARM_ARCH_8A := true |}.
Definition other_build : build := {| NDEBUG := false; ARM_ARCH_8A := false |}.

(** ** Vocabulary for calls among other threads *)

Section Contention.
Context {T : Type} `{Scalar T}.

(** A compare-and-swap that failed. *)
Definition is_lost_cas (e : event T) : bool :=
  match e with EvCas _ _ _ _ ok => negb ok | _ => false end.

(** A compare-and-swap given [m] both as success and as failure ordering. *)
Definition is_cas_under (m : memory_order) (e : event T) : bool :=
  match e with
  | EvCas success failure _ _ _ => (success =? m) && (failure =? m)
  | _ => false
  end.

(** The values other threads will store, in the order of the schedule. *)
Definition intrusions (s : list (tick T)) : list T :=
  flat_map (fun tk => match intrusion tk with
                      | Some u => [u]
                      | None => []
                      end) s.

(** Every value the object holds during a call, our own stores apart. *)
Definition held (w : world T) : list T := cell w :: intrusions (sched w).

End Contention.

(** The other threads only ever raise the value of an integer object, as
    they do when all of them go through fetch-max. *)
Fixpoint rising (c : Z) (s : list (tick Z)) : Prop :=
  match s with
  | [] => True
  | tk :: rest =>
      match intrusion tk with
      | Some u => c <= u /\ rising u rest
      | None => rising c rest
      end
  end.

(** fetch_max.hpp, [format], on the value an object of type [type_e]
    holds: the [switch] has a case for each enumerator, and the [return]
    after it answers for every other value. *)
Definition format_value (i : Z) : string :=
  if i =? type_e_value strong then "strong"
  else if i =? type_e_value weak then "weak"
  else if i =? type_e_value smart then "smart"
  else if i =? type_e_value hardware then "hardware"
  else "what?".

(** The largest of [c] and the values [vs]. *)
Definition maximum_of (c : Z) (vs : list Z) : Z := fold_left Z.max vs c.

(** * Properties *)

(** ** Memory orderings *)

Lemma is_enumerator_cases (m : memory_order) :
  is_enumerator m = true ->
  m = memory_order_relaxed \/ m = memory_order_consume \/
  m = memory_order_acquire \/ m = memory_order_release \/
  m = memory_order_acq_rel \/ m = memory_order_seq_cst.
Proof.
  unfold is_enumerator, enumerators; simpl.
  rewrite !orb_true_iff, !Z.eqb_eq. intuition (auto; discriminate).
Qed.

Lemma load_order_legal (m : memory_order) : legal_for_load (load_order m) = true.
Proof.
  unfold legal_for_load, load_order.
  destruct (m =? memory_order_release) eqn:Hr; [reflexivity|].
  destruct (m =? memory_order_acq_rel) eqn:Ha; [reflexivity|].
  rewrite Hr, Ha. reflexivity.
Qed.

(** C2: [load_order] gives relaxed for release and acquire for acq_rel, and
    gives back relaxed, acquire, consume and seq_cst unchanged. *)
Theorem load_order_table :
  load_order memory_order_release = memory_order_relaxed /\
  load_order memory_order_acq_rel = memory_order_acquire /\
  load_order memory_order_relaxed = memory_order_relaxed /\
  load_order memory_order_acquire = memory_order_acquire /\
  load_order memory_order_consume = memory_order_consume /\
  load_order memory_order_seq_cst = memory_order_seq_cst.
Proof. repeat split. Qed.

(** ** The scalar instances *)

Lemma int_lawful (sg : bool) (bytes : Z) : @Lawful Z (int_scalar sg bytes).
Proof.
  constructor; cbn [less equal int_scalar]; intros.
  - apply Z.eqb_eq.
  - apply Z.ltb_irrefl.
  - rewrite Z.ltb_ge in *. lia.
Qed.

Lemma type_e_lawful : @Lawful type_e type_e_scalar.
Proof.
  constructor; cbn [less equal type_e_scalar].
  - intros [] []; cbn; split; intro E; try reflexivity; discriminate E.
  - intros a. apply Z.ltb_irrefl.
  - intros [] []; cbn; intros; try reflexivity; discriminate.
Qed.

(** ** The atomic operations when the call runs alone *)

Section Alone.
Context {T : Type} `{Scalar T} {L : Lawful T}.

Lemma equal_refl (a : T) : equal a a = true.
Proof. apply equal_spec. reflexivity. Qed.

Lemma settled_refl (w : world T) : calm (sched w) = true -> settled w w.
Proof. intro C. split; [exact C | apply Nat.le_refl]. Qed.

Lemma settled_trans (w1 w2 w3 : world T) :
  settled w1 w2 -> settled w2 w3 -> settled w1 w3.
Proof. intros [_ A] [B C]. split; [exact B | lia]. Qed.

Lemma arrive_calm (w : world T) :
  calm (sched w) = true ->
  cell (snd (arrive w)) = cell w /\ settled w (snd (arrive w)) /\
  (sched w = [] \/ (length (sched (snd (arrive w))) < length (sched w))%nat).
Proof.
  unfold arrive, settled. destruct (sched w) as [|tk rest] eqn:E; intro C.
  - cbn. rewrite E. repeat split; auto.
  - cbn in C. apply andb_true_iff in C as [C1 C2].
    destruct (intrusion tk); [discriminate|].
    cbn. repeat split; auto.
Qed.

Lemma arrive_nil (w : world T) : sched w = [] -> arrive w = (false, w).
Proof. intro E. unfold arrive. rewrite E. reflexivity. Qed.

Lemma load_calm (m : memory_order) (w : world T) :
  calm (sched w) = true ->
  exists w', load m w = Returned (cell w, w') /\ cell w' = cell w /\
             settled w w'.
Proof.
  intro C. destruct (arrive_calm w C) as (A1 & A2 & _).
  unfold load. destruct (arrive w) as [sp w1]. cbn in *.
  eexists. rewrite A1. split; [reflexivity|]. cbn. auto.
Qed.

(** Alone, a compare-and-swap whose expected value is the value of the
    object fails only spuriously, and then uses up a tick. *)
Lemma cas_calm (desired : T) (ms mf : memory_order) (w : world T) :
  calm (sched w) = true ->
  (exists w', compare_exchange_weak (cell w) desired ms mf w
              = Returned ((true, cell w), w') /\
              cell w' = desired /\ settled w w') \/
  (exists w', compare_exchange_weak (cell w) desired ms mf w
              = Returned ((false, cell w), w') /\
              cell w' = cell w /\ settled w w' /\
              (length (sched w') < length (sched w))%nat).
Proof.
  intro C. destruct (arrive_calm w C) as (A1 & A2 & A3).
  unfold compare_exchange_weak.
  destruct (arrive w) as [sp w1] eqn:E. cbn [snd] in *.
  rewrite A1, equal_refl. destruct sp; cbn [andb negb].
  - right. destruct A3 as [A3|A3].
    { rewrite (arrive_nil w A3) in E. discriminate E. }
    eexists. split; [reflexivity|]. cbn. auto.
  - left. eexists. split; [reflexivity|]. cbn. auto.
Qed.

(** Alone, the retry loop ends as soon as the compare-and-swap stops
    failing spuriously, and has then stored [desired] of the value it
    found. *)
Lemma retry_calm (fuel : nat) (desired : T -> T) (m : memory_order) :
  forall w : world T,
    calm (sched w) = true -> (length (sched w) < fuel)%nat ->
    exists w', retry fuel desired (cell w) m w = Returned (cell w, w') /\
               cell w' = desired (cell w) /\ settled w w'.
Proof.
  induction fuel as [|fuel IH]; intros w C F; [lia|].
  cbn [retry]. unfold bind at 1.
  destruct (cas_calm (desired (cell w)) m m w C)
    as [(w1 & E & E1 & E2) | (w1 & E & E1 & E2 & E3)]; rewrite E.
  - exists w1. auto.
  - destruct (IH w1) as (w' & R & R1 & R2); [apply E2 | lia |].
    rewrite E1 in R, R1. exists w'. split; [exact R|]. split; [exact R1|].
    eapply settled_trans; eassumption.
Qed.

Lemma improves_max (v c : T) :
  negb (equal (std_max v c) c) = true -> std_max v c = v.
Proof.
  unfold std_max. destruct (less v c); [|reflexivity].
  rewrite equal_refl. discriminate.
Qed.

Lemma no_improvement_max (v c : T) :
  negb (equal (std_max v c) c) = false -> std_max v c = c.
Proof.
  intro E. apply negb_false_iff in E. apply equal_spec in E. exact E.
Qed.

Lemma weak_loop_calm (fuel : nat) (v : T) (m : memory_order) :
  forall w : world T,
    calm (sched w) = true -> (length (sched w) < fuel)%nat ->
    exists w', weak_loop fuel v (cell w) m w = Returned (cell w, w') /\
               cell w' = std_max v (cell w) /\ settled w w'.
Proof.
  induction fuel as [|fuel IH]; intros w C F; [lia|].
  cbn [weak_loop].
  destruct (negb (equal (std_max v (cell w)) (cell w))) eqn:N.
  - unfold bind at 1.
    destruct (cas_calm v m m w C)
      as [(w1 & E & E1 & E2) | (w1 & E & E1 & E2 & E3)]; rewrite E.
    + exists w1. rewrite (improves_max _ _ N). auto.
    + destruct (IH w1) as (w' & R & R1 & R2); [apply E2 | lia |].
      rewrite E1 in R, R1. exists w'. split; [exact R|]. split; [exact R1|].
      eapply settled_trans; eassumption.
  - exists w. split; [reflexivity|]. split.
    + symmetry. apply no_improvement_max, N.
    + apply settled_refl, C.
Qed.

(** Alone, the smart loop returns from inside exactly when the candidate
    improves on the value of the object. *)
Lemma smart_loop_calm (fuel : nat) (v : T) (m : memory_order) :
  forall w : world T,
    calm (sched w) = true -> (length (sched w) < fuel)%nat ->
    exists w',
      smart_loop fuel v (cell w) m w
      = Returned ((if negb (equal (std_max v (cell w)) (cell w))
                   then inl (cell w) else inr (cell w)), w') /\
      cell w' = std_max v (cell w) /\ settled w w'.
Proof.
  induction fuel as [|fuel IH]; intros w C F; [lia|].
  cbn [smart_loop].
  destruct (negb (equal (std_max v (cell w)) (cell w))) eqn:N.
  - unfold bind at 1.
    destruct (cas_calm v m m w C)
      as [(w1 & E & E1 & E2) | (w1 & E & E1 & E2 & E3)]; rewrite E.
    + exists w1. rewrite (improves_max _ _ N). auto.
    + destruct (IH w1) as (w' & R & R1 & R2); [apply E2 | lia |].
      rewrite E1 in R, R1. rewrite N in R.
      exists w'. split; [exact R|]. split; [exact R1|].
      eapply settled_trans; eassumption.
  - exists w. split; [reflexivity|]. split.
    + symmetry. apply no_improvement_max, N.
    + apply settled_refl, C.
Qed.

Lemma fetch_add_calm `{FetchAdd T} (k : Z) (m : memory_order) (w : world T) :
  calm (sched w) = true ->
  exists w', fetch_add k m w = Returned (cell w, w') /\
             cell w' = plus (cell w) k /\ settled w w'.
Proof.
  intro C. destruct (arrive_calm w C) as (A1 & A2 & _).
  unfold fetch_add. destruct (arrive w) as [sp w1]. cbn in *.
  eexists. rewrite A1. split; [reflexivity|]. cbn. auto.
Qed.

(** *** The three strategies, alone *)

Lemma strong_alone (fuel : nat) (v : T) (m : memory_order) (w : world T) :
  calm (sched w) = true -> (length (sched w) < fuel)%nat ->
  exists w', atomic_fetch_max_strong fuel v m w = Returned (cell w, w') /\
             cell w' = std_max v (cell w) /\ settled w w'.
Proof.
  intros C F. unfold atomic_fetch_max_strong, bind.
  destruct (load_calm m w C) as (w1 & E & E1 & E2). rewrite E.
  destruct (retry_calm fuel (fun t => std_max v t) m w1) as (w2 & R & R1 & R2);
    [apply E2 | destruct E2; lia |].
  rewrite E1 in R, R1. rewrite R. exists w2. split; [reflexivity|].
  split; [exact R1|]. eapply settled_trans; eassumption.
Qed.

Lemma weak_alone (fuel : nat) (v : T) (m : memory_order) (w : world T) :
  calm (sched w) = true -> (length (sched w) < fuel)%nat ->
  exists w', atomic_fetch_max_weak fuel v m w = Returned (cell w, w') /\
             cell w' = std_max v (cell w) /\ settled w w'.
Proof.
  intros C F. unfold atomic_fetch_max_weak, bind.
  destruct (load_calm m w C) as (w1 & E & E1 & E2). rewrite E.
  destruct (weak_loop_calm fuel v m w1) as (w2 & R & R1 & R2);
    [apply E2 | destruct E2; lia |].
  rewrite E1 in R, R1. rewrite R. exists w2. split; [reflexivity|].
  split; [exact R1|]. eapply settled_trans; eassumption.
Qed.

Lemma smart_alone `{FetchAdd T} (fuel : nat) (v : T) (m : memory_order)
      (w : world T) :
  plus (cell w) 0 = cell w ->
  calm (sched w) = true -> (length (sched w) < fuel)%nat ->
  exists w', atomic_fetch_max_smart fuel v m w = Returned (cell w, w') /\
             cell w' = std_max v (cell w) /\ settled w w'.
Proof.
  intros P C F. unfold atomic_fetch_max_smart. unfold bind at 1.
  destruct (load_calm m w C) as (w1 & E & E1 & E2). rewrite E.
  unfold bind at 1.
  destruct (smart_loop_calm fuel v m w1) as (w2 & R & R1 & R2);
    [apply E2 | destruct E2; lia |].
  rewrite E1 in R, R1. rewrite R.
  assert (S2 : settled w w2) by (eapply settled_trans; eassumption).
  destruct (negb (equal (std_max v (cell w)) (cell w))) eqn:N.
  - exists w2. auto.
  - apply no_improvement_max in N. rewrite N in R1.
    destruct ((m =? memory_order_release) || (m =? memory_order_acq_rel)
              || (m =? memory_order_seq_cst)).
    + destruct (fetch_add_calm 0 m w2 (proj1 S2)) as (w3 & A & A1 & A2).
      unfold bind. rewrite A. exists w3. split; [reflexivity|].
      rewrite A1, R1, N. split; [exact P|].
      eapply settled_trans; eassumption.
    + exists w2. unfold bind, ret. rewrite N. auto.
Qed.

End Alone.

(** ** Integer types and the instructions *)

Section Integers.
Variable sg : bool.
Variable bytes : Z.
Hypothesis width : In bytes [1; 2; 4; 8].

Let ty : Scalar Z := int_scalar sg bytes.

Lemma width_pos : 0 < bytes.
Proof. destruct width as [<-|[<-|[<-|[<-|[]]]]]; lia. Qed.

Lemma pow_split : 2 ^ (8 * bytes) = 2 * 2 ^ (8 * bytes - 1) /\ 0 < 2 ^ (8 * bytes - 1).
Proof.
  pose proof width_pos. split.
  - rewrite <- Z.pow_succ_r by lia. f_equal. lia.
  - apply Z.pow_pos_nonneg; lia.
Qed.

Lemma norm_cases (x : Z) :
  - 2 ^ (8 * bytes) <= x < 2 ^ (8 * bytes) ->
  x mod 2 ^ (8 * bytes) = if x <? 0 then x + 2 ^ (8 * bytes) else x.
Proof.
  intros R. destruct (Z.ltb_spec x 0).
  - symmetry. apply (Z.mod_unique x _ (-1)); lia.
  - apply Z.mod_small. lia.
Qed.

Lemma in_range_wide (x : Z) :
  in_range sg bytes x -> - 2 ^ (8 * bytes) <= x < 2 ^ (8 * bytes).
Proof.
  destruct pow_split as [P Q]. unfold in_range. destruct sg; lia.
Qed.

(** The value of the type that an object representation denotes. *)
Lemma of_bits_to_bits (x : Z) :
  in_range sg bytes x -> @of_bits Z ty (@to_bits Z ty x) = x.
Proof.
  intro R. pose proof (in_range_wide x R) as Wd.
  destruct pow_split as [P Q].
  cbn [of_bits to_bits ty int_scalar].
  rewrite Z.mod_mod by lia. rewrite (norm_cases x Wd).
  unfold in_range in R. unfold SInt.
  destruct sg; destruct (Z.ltb_spec x 0);
    try destruct (Z.ltb_spec (x + 2 ^ (8 * bytes)) (2 ^ (8 * bytes - 1)));
    try destruct (Z.ltb_spec x (2 ^ (8 * bytes - 1))); lia.
Qed.

Lemma to_bits_small (x : Z) :
  0 <= @to_bits Z ty x < 2 ^ (8 * bytes).
Proof.
  destruct pow_split as [P Q]. cbn [to_bits ty int_scalar].
  apply Z.mod_pos_bound. lia.
Qed.

(** The key by which the instruction compares is the value of the type. *)
Lemma key_to_bits (x : Z) :
  in_range sg bytes x ->
  (if sg then SInt (8 * bytes) (@to_bits Z ty x) else @to_bits Z ty x) = x.
Proof.
  intro R. pose proof (of_bits_to_bits x R) as E.
  cbn [of_bits to_bits ty int_scalar] in *.
  destruct pow_split as [P Q]. rewrite Z.mod_mod in E by lia. exact E.
Qed.

(** One max or min instruction of the right width and signedness, executed
    alone on an object of the type. *)
Lemma asm_int (template : string) (i : lse_insn) (v : Z) (w : world Z) :
  assemble template = Some i ->
  i_datasize i = 8 * bytes -> i_signed i = sg ->
  in_range sg bytes v -> in_range sg bytes (cell w) ->
  calm (sched w) = true ->
  exists w', @asm_volatile Z ty template v w = Returned (cell w, w') /\
             cell w' = (if i_max i then Z.max (cell w) v else Z.min (cell w) v) /\
             log w' = log w ++ [EvAsm template (cell w) (cell w')] /\
             settled w w'.
Proof.
  intros A D Sg Rv Rc C.
  destruct (arrive_calm w C) as (A1 & A2 & _).
  unfold asm_volatile. rewrite A.
  assert (Lg : log (snd (arrive w)) = log w).
  { unfold arrive. destruct (sched w); reflexivity. }
  destruct (arrive w) as [sp w1]. cbn [snd] in *.
  rewrite D. cbn [sizeof ty int_scalar].
  rewrite Z.gtb_ltb, Z.ltb_irrefl.
  rewrite A1.
  pose proof (to_bits_small (cell w)) as Bc.
  pose proof (to_bits_small v) as Bv.
  rewrite !Z.mod_small by assumption.
  assert (R : lse_result i (@to_bits Z ty (cell w)) (@to_bits Z ty v)
              = @to_bits Z ty (if i_max i then Z.max (cell w) v
                              else Z.min (cell w) v)).
  { unfold lse_result. rewrite D, Sg, !key_to_bits by assumption.
    destruct (i_max i); destruct (Z.gtb_spec (cell w) v).
    - rewrite Z.max_l by lia. reflexivity.
    - rewrite Z.max_r by lia. reflexivity.
    - rewrite Z.min_r by lia. reflexivity.
    - rewrite Z.min_l by lia. reflexivity. }
  rewrite R.
  rewrite Z.sub_diag, Z.add_0_l.
  assert (Rm : in_range sg bytes (if i_max i then Z.max (cell w) v
                                  else Z.min (cell w) v)).
  { destruct (i_max i); [apply Z.max_case | apply Z.min_case]; assumption. }
  rewrite !of_bits_to_bits by assumption.
  eexists. split; [reflexivity|]. cbn. rewrite Lg. auto.
Qed.

End Integers.

(** ** The macro dispatch *)

(** For each integer width and signedness and each of the six orderings,
    [DEF2] executes exactly one instruction, and it is the instruction the
    architecture gives for that width, signedness and ordering. *)
Lemma DEF2_int (cfg : build) (sg mx : bool) (bytes : Z) (m : memory_order) :
  In bytes [1; 2; 4; 8] -> is_enumerator m = true ->
  exists template,
    assemble template = Some (expected_insn sg mx m bytes) /\
    forall (v : Z) (x : option Z),
      @DEF2 Z (int_scalar sg bytes) cfg "ld" (if mx then "max" else "min") v m x
      = (r <- @asm_volatile Z (int_scalar sg bytes) template v ;; ret (Some r)).
Proof.
  intros W E.
  destruct W as [<-|[<-|[<-|[<-|[]]]]];
    destruct (is_enumerator_cases m E) as [->|[->|[->|[->|[->| ->]]]]];
    destruct sg, mx;
    (eexists; split;
     [| intros v x; unfold DEF2, DEF1, DEF0;
        cbn [is_signed sizeof int_scalar];
        cbv -[asm_volatile bind ret int_scalar]; reflexivity];
     vm_compute; reflexivity).
Qed.

Lemma width_check (bytes : Z) :
  In bytes [1; 2; 4; 8] ->
  (bytes =? 8) || (bytes =? 4) || (bytes =? 2) || (bytes =? 1) = true.
Proof. intros [<-|[<-|[<-|[<-|[]]]]]; reflexivity. Qed.

(** ** The architecture-aware entry points *)

Section Explicit.
Variable cfg : build.

(** The integral branch: one instruction, for either function. *)
Lemma explicit_int_branch (sg mx : bool) (bytes : Z) (v : Z)
      (m : memory_order) (w : world Z) :
  In bytes [1; 2; 4; 8] -> is_enumerator m = true ->
  in_range sg bytes v -> in_range sg bytes (cell w) ->
  calm (sched w) = true ->
  exists w',
    (x <- (_ <- assert_ cfg ((bytes =? 8) || (bytes =? 4) ||
                             (bytes =? 2) || (bytes =? 1)) ;;
           @DEF2 Z (int_scalar sg bytes) cfg "ld"
                 (if mx then "max" else "min") v m None) ;;
     read_local x) w = Returned (cell w, w') /\
    cell w' = (if mx then Z.max (cell w) v else Z.min (cell w) v) /\
    settled w w'.
Proof.
  intros W E Rv Rc C.
  destruct (DEF2_int cfg sg mx bytes m W E) as (template & A & D).
  rewrite D. unfold bind, assert_. rewrite (width_check bytes W).
  cbn [orb].
  destruct (asm_int sg bytes W template _ v w A eq_refl eq_refl Rv Rc C)
    as (w' & X & X1 & _ & X2).
  rewrite X. exists w'. cbn. auto.
Qed.

Lemma max_explicit_int (sg : bool) (bytes : Z) (fuel : nat) (v : Z)
      (m : memory_order) (w : world Z) :
  In bytes [1; 2; 4; 8] -> is_enumerator m = true ->
  in_range sg bytes v -> in_range sg bytes (cell w) ->
  calm (sched w) = true ->
  exists w',
    @atomic_fetch_max_explicit Z (int_scalar sg bytes) cfg fuel v m w
    = Returned (cell w, w') /\
    cell w' = Z.max (cell w) v /\ settled w w'.
Proof.
  intros W E Rv Rc C.
  exact (explicit_int_branch sg true bytes v m w W E Rv Rc C).
Qed.

Lemma min_explicit_int (sg : bool) (bytes : Z) (fuel : nat) (v : Z)
      (m : memory_order) (w : world Z) :
  In bytes [1; 2; 4; 8] -> is_enumerator m = true ->
  in_range sg bytes v -> in_range sg bytes (cell w) ->
  calm (sched w) = true ->
  exists w',
    @atomic_fetch_min_explicit Z (int_scalar sg bytes) cfg fuel v m w
    = Returned (cell w, w') /\
    cell w' = Z.min (cell w) v /\ settled w w'.
Proof.
  intros W E Rv Rc C.
  exact (explicit_int_branch sg false bytes v m w W E Rv Rc C).
Qed.

(** The other branch: the compare-and-swap loop. *)
Lemma max_explicit_loop {T : Type} `{Scalar T} {L : Lawful T}
      (fuel : nat) (v : T) (m : memory_order) (w : world T) :
  is_integral = false ->
  calm (sched w) = true -> (length (sched w) < fuel)%nat ->
  exists w', atomic_fetch_max_explicit cfg fuel v m w = Returned (cell w, w') /\
             cell w' = std_max v (cell w) /\ settled w w'.
Proof.
  intros NI C F. unfold atomic_fetch_max_explicit. rewrite NI.
  unfold bind.
  destruct (load_calm (load_order m) w C) as (w1 & E & E1 & E2). rewrite E.
  destruct (retry_calm fuel (fun x => std_max v x) m w1) as (w2 & R & R1 & R2);
    [apply E2 | destruct E2; lia |].
  rewrite E1 in R, R1. rewrite R. exists w2. split; [reflexivity|].
  split; [exact R1|]. eapply settled_trans; eassumption.
Qed.

Lemma min_explicit_loop {T : Type} `{Scalar T} {L : Lawful T}
      (fuel : nat) (v : T) (m : memory_order) (w : world T) :
  is_integral = false ->
  calm (sched w) = true -> (length (sched w) < fuel)%nat ->
  exists w', atomic_fetch_min_explicit cfg fuel v m w = Returned (cell w, w') /\
             cell w' = std_min v (cell w) /\ settled w w'.
Proof.
  intros NI C F. unfold atomic_fetch_min_explicit. rewrite NI.
  unfold bind.
  destruct (load_calm (load_order m) w C) as (w1 & E & E1 & E2). rewrite E.
  destruct (retry_calm fuel (fun x => std_min v x) m w1) as (w2 & R & R1 & R2);
    [apply E2 | destruct E2; lia |].
  rewrite E1 in R, R1. rewrite R. exists w2. split; [reflexivity|].
  split; [exact R1|]. eapply settled_trans; eassumption.
Qed.

End Explicit.

(** [atomic_fetch_max<type_e::hardware>] where the instruction exists. *)
Lemma hardware_alone (cfg : build) (v : Z) (m : memory_order) (w : world Z) :
  ARM_ARCH_8A cfg = true -> is_enumerator m = true ->
  in_range true 4 v -> in_range true 4 (cell w) ->
  calm (sched w) = true ->
  exists w', atomic_fetch_max_hardware cfg v m w = Returned (cell w, w') /\
             cell w' = Z.max (cell w) v /\ settled w w'.
Proof.
  intros A E Rv Rc C. unfold atomic_fetch_max_hardware. rewrite A.
  assert (W : In 4 [1; 2; 4; 8]) by (cbn; auto).
  destruct (is_enumerator_cases m E) as [->|[->|[->|[->|[->| ->]]]]];
    cbv [memory_order_relaxed memory_order_consume memory_order_acquire
         memory_order_release memory_order_acq_rel memory_order_seq_cst];
    simpl (_ =? _); cbn [orb]; unfold bind;
    match goal with
    | |- context [asm_volatile ?t v w] =>
        let r := eval vm_compute in (assemble t) in
        match r with
        | Some ?i =>
            assert (A1 : assemble t = Some i) by (vm_compute; reflexivity);
            destruct (asm_int true 4 W t i v w A1 eq_refl eq_refl Rv Rc C)
              as (w' & X & X1 & _ & X2)
        end;
        unfold int32_t; rewrite X; exists w'; cbn in *; auto
    end.
Qed.

(** The integer maximum and minimum are what <algorithm> computes. *)
Lemma std_max_int (sg : bool) (bytes : Z) (v c : Z) :
  @std_max Z (int_scalar sg bytes) v c = Z.max c v.
Proof.
  unfold std_max. cbn [less int_scalar].
  destruct (Z.ltb_spec v c); [rewrite Z.max_l | rewrite Z.max_r]; lia.
Qed.

Lemma std_min_int (sg : bool) (bytes : Z) (v c : Z) :
  @std_min Z (int_scalar sg bytes) v c = Z.min c v.
Proof.
  unfold std_min. cbn [less int_scalar].
  destruct (Z.ltb_spec c v); [rewrite Z.min_l | rewrite Z.min_r]; lia.
Qed.

Lemma pointer_lawful : @Lawful Z pointer_scalar.
Proof.
  constructor; cbn [less equal pointer_scalar]; intros.
  - apply Z.eqb_eq.
  - apply Z.ltb_irrefl.
  - rewrite Z.ltb_ge in *. lia.
Qed.

Lemma settled_updates {T : Type} (call : M T T) (w : world T) (c : T) :
  (exists w', call w = Returned (cell w, w') /\ cell w' = c /\ settled w w') ->
  updates call w c.
Proof. intros (w' & A & B & _). exists w'. auto. Qed.

(** ** Result of a call that runs alone *)

(** C1: a call of fetch-max that runs alone returns the value the object held
    when the call began and leaves in it the maximum of that value and the
    candidate: for the strong, weak and smart strategies on any lawful scalar
    type (whatever the ordering and however often the weak compare-and-swap
    fails spuriously), for the compare-and-swap branch of
    [atomic_fetch_max_explicit], for its instruction branch and for the
    hardware strategy on the integer types under the six orderings.  On an
    [int32_t] holding 5, candidate 9 returns 5 and leaves 9, then candidate
    3 returns 9 and leaves 9. *)
Theorem fetch_max_result
        {T : Type} `{Scalar T} `{FetchAdd T} {L : Lawful T}
        (cfg : build) (fuel : nat) (m : memory_order)
        (v : T) (w : world T)
        (sg : bool) (bytes : Z) (vz : Z) (wz : world Z) :
  calm (sched w) = true -> (length (sched w) < fuel)%nat ->
  plus (cell w) 0 = cell w ->
  In bytes [1; 2; 4; 8] -> is_enumerator m = true ->
  in_range sg bytes vz -> in_range sg bytes (cell wz) ->
  calm (sched wz) = true ->
  updates (atomic_fetch_max_strong fuel v m) w (std_max v (cell w)) /\
  updates (atomic_fetch_max_weak fuel v m) w (std_max v (cell w)) /\
  updates (atomic_fetch_max_smart fuel v m) w (std_max v (cell w)) /\
  (is_integral = false ->
   updates (atomic_fetch_max_explicit cfg fuel v m) w (std_max v (cell w))) /\
  updates (@atomic_fetch_max_explicit Z (int_scalar sg bytes) cfg fuel vz m)
          wz (Z.max (cell wz) vz) /\
  (ARM_ARCH_8A cfg = true -> sg = true -> bytes = 4 ->
   updates (atomic_fetch_max_hardware cfg vz m) wz (Z.max (cell wz) vz)) /\
  calls_9_then_3 (@atomic_fetch_max_strong Z int32_t 1) = Some (5, 9, 9, 9) /\
  calls_9_then_3 (@atomic_fetch_max_weak Z int32_t 1) = Some (5, 9, 9, 9) /\
  calls_9_then_3 (@atomic_fetch_max_smart Z int32_t (int_fetch_add true 4) 1)
  = Some (5, 9, 9, 9) /\
  calls_9_then_3 (@atomic_fetch_max_explicit Z int32_t aarch64_build 0)
  = Some (5, 9, 9, 9) /\
  calls_9_then_3 (atomic_fetch_max_hardware aarch64_build) = Some (5, 9, 9, 9).
Proof.
  intros C F P W E Rv Rc Cz.
  split; [apply settled_updates, strong_alone; assumption|].
  split; [apply settled_updates, weak_alone; assumption|].
  split; [apply settled_updates, smart_alone; assumption|].
  split; [intro NI; apply settled_updates, max_explicit_loop; assumption|].
  split; [apply settled_updates, max_explicit_int; assumption|].
  split.
  { intros A -> ->. apply settled_updates, hardware_alone; assumption. }
  repeat split; vm_compute; reflexivity.
Qed.

Lemma fetch_max_result_witness :
  let w := fresh 5 [{| intrusion := None; spurious := true |}] in
  let wz := fresh (-5) [] in
  updates (@atomic_fetch_max_strong Z pointer_scalar 2 9 memory_order_seq_cst)
          w 9 /\
  updates (@atomic_fetch_max_weak Z pointer_scalar 2 9 memory_order_seq_cst)
          w 9 /\
  updates (@atomic_fetch_max_smart Z pointer_scalar (pointer_fetch_add 4) 2 9
                                   memory_order_seq_cst) w 9 /\
  updates (@atomic_fetch_max_explicit Z pointer_scalar aarch64_build 2 9
                                      memory_order_seq_cst) w 9 /\
  updates (@atomic_fetch_max_explicit Z (int_scalar true 4) aarch64_build 2 (-3)
                                      memory_order_seq_cst) wz (-3) /\
  updates (atomic_fetch_max_hardware aarch64_build (-3) memory_order_seq_cst)
          wz (-3).
Proof.
  intros w wz.
  destruct (@fetch_max_result Z pointer_scalar (pointer_fetch_add 4)
              pointer_lawful aarch64_build 2 memory_order_seq_cst 9 w
              true 4 (-3) wz)
    as (A1 & A2 & A3 & A4 & A5 & A6 & _).
  - reflexivity.
  - cbn. lia.
  - reflexivity.
  - cbn. auto.
  - reflexivity.
  - cbn. lia.
  - cbn. lia.
  - reflexivity.
  - repeat split; [exact A1 | exact A2 | exact A3 | exact (A4 eq_refl) | exact A5
                   | exact (A6 eq_refl eq_refl eq_refl)].
Defined.

(** C9: a call of [atomic_fetch_min_explicit] that runs alone returns the
    value the object held when the call began and leaves in it the smaller of
    that value and the candidate, through the compare-and-swap loop for a
    scalar that is not integral and through the instruction for the integer
    types. *)
Theorem fetch_min_result
        {T : Type} `{Scalar T} {L : Lawful T}
        (cfg : build) (fuel : nat) (m : memory_order)
        (v : T) (w : world T)
        (sg : bool) (bytes : Z) (vz : Z) (wz : world Z) :
  is_integral = false ->
  calm (sched w) = true -> (length (sched w) < fuel)%nat ->
  In bytes [1; 2; 4; 8] -> is_enumerator m = true ->
  in_range sg bytes vz -> in_range sg bytes (cell wz) ->
  calm (sched wz) = true ->
  updates (atomic_fetch_min_explicit cfg fuel v m) w (std_min v (cell w)) /\
  updates (@atomic_fetch_min_explicit Z (int_scalar sg bytes) cfg fuel vz m)
          wz (Z.min (cell wz) vz).
Proof.
  intros NI C F W E Rv Rc Cz. split.
  - apply settled_updates, min_explicit_loop; assumption.
  - apply settled_updates, min_explicit_int; assumption.
Qed.

Lemma fetch_min_result_witness :
  updates (@atomic_fetch_min_explicit type_e type_e_scalar aarch64_build 2
             weak memory_order_acq_rel)
          (fresh smart [{| intrusion := None; spurious := true |}]) weak /\
  updates (@atomic_fetch_min_explicit Z (int_scalar false 2) aarch64_build 2
             65535 memory_order_acq_rel)
          (fresh 7 []) 7.
Proof.
  apply (@fetch_min_result type_e type_e_scalar type_e_lawful aarch64_build 2
           memory_order_acq_rel weak
           (fresh smart [{| intrusion := None; spurious := true |}])
           false 2 65535 (fresh 7 [])).
  - reflexivity.
  - reflexivity.
  - cbn. lia.
  - cbn. auto.
  - reflexivity.
  - cbn. lia.
  - cbn. lia.
  - reflexivity.
Defined.

(** ** Equivalences *)

(** C6: on an integer type of 1, 2, 4 or 8 bytes, signed or unsigned, under
    each of the six orderings, [atomic_fetch_max_explicit] and the strong
    strategy, each run alone from the same state, return the same value and
    leave the same value in the object. *)
Theorem explicit_agrees_with_strong
        (cfg : build) (sg : bool) (bytes : Z) (fuel : nat)
        (v : Z) (m : memory_order) (w : world Z) :
  In bytes [1; 2; 4; 8] -> is_enumerator m = true ->
  in_range sg bytes v -> in_range sg bytes (cell w) ->
  calm (sched w) = true -> (length (sched w) < fuel)%nat ->
  exists r c w1 w2,
    @atomic_fetch_max_explicit Z (int_scalar sg bytes) cfg fuel v m w
    = Returned (r, w1) /\
    @atomic_fetch_max_strong Z (int_scalar sg bytes) fuel v m w
    = Returned (r, w2) /\
    cell w1 = c /\ cell w2 = c.
Proof.
  intros W E Rv Rc C F.
  destruct (max_explicit_int cfg sg bytes fuel v m w W E Rv Rc C)
    as (w1 & A & A1 & _).
  destruct (@strong_alone Z (int_scalar sg bytes) (int_lawful sg bytes)
              fuel v m w C F) as (w2 & B & B1 & _).
  exists (cell w), (Z.max (cell w) v), w1, w2.
  rewrite std_max_int in B1. auto.
Qed.

Lemma explicit_agrees_with_strong_witness :
  exists r c w1 w2,
    @atomic_fetch_max_explicit Z (int_scalar true 1) aarch64_build 3 (-3)
      memory_order_acq_rel
      (fresh (-128) [{| intrusion := None; spurious := true |}])
    = Returned (r, w1) /\
    @atomic_fetch_max_strong Z (int_scalar true 1) 3 (-3)
      memory_order_acq_rel
      (fresh (-128) [{| intrusion := None; spurious := true |}])
    = Returned (r, w2) /\
    cell w1 = c /\ cell w2 = c.
Proof.
  apply (explicit_agrees_with_strong aarch64_build true 1 3 (-3)
           memory_order_acq_rel
           (fresh (-128) [{| intrusion := None; spurious := true |}])).
  - cbn. auto.
  - reflexivity.
  - cbn. lia.
  - cbn. lia.
  - reflexivity.
  - cbn. lia.
Defined.

(** C10: run alone from the same state, the strong, weak and smart
    strategies return the same value and leave the same value in the
    object. *)
Theorem strategies_agree
        {T : Type} `{Scalar T} `{FetchAdd T} {L : Lawful T}
        (fuel : nat) (v : T) (m : memory_order) (w : world T) :
  calm (sched w) = true -> (length (sched w) < fuel)%nat ->
  plus (cell w) 0 = cell w ->
  exists r c ws ww wm,
    atomic_fetch_max_strong fuel v m w = Returned (r, ws) /\
    atomic_fetch_max_weak fuel v m w = Returned (r, ww) /\
    atomic_fetch_max_smart fuel v m w = Returned (r, wm) /\
    cell ws = c /\ cell ww = c /\ cell wm = c.
Proof.
  intros C F P.
  destruct (strong_alone fuel v m w C F) as (ws & A & A1 & _).
  destruct (weak_alone fuel v m w C F) as (ww & B & B1 & _).
  destruct (smart_alone fuel v m w P C F) as (wm & D & D1 & _).
  exists (cell w), (std_max v (cell w)), ws, ww, wm. auto 10.
Qed.

Lemma strategies_agree_witness :
  exists r c ws ww wm,
    @atomic_fetch_max_strong Z int32_t 3 3 memory_order_seq_cst
      (fresh 9 [{| intrusion := None; spurious := true |}])
    = Returned (r, ws) /\
    @atomic_fetch_max_weak Z int32_t 3 3 memory_order_seq_cst
      (fresh 9 [{| intrusion := None; spurious := true |}])
    = Returned (r, ww) /\
    @atomic_fetch_max_smart Z int32_t (int_fetch_add true 4) 3 3
      memory_order_seq_cst
      (fresh 9 [{| intrusion := None; spurious := true |}])
    = Returned (r, wm) /\
    cell ws = c /\ cell ww = c /\ cell wm = c.
Proof.
  apply (@strategies_agree Z int32_t (int_fetch_add true 4) (int_lawful true 4)
           3 3 memory_order_seq_cst
           (fresh 9 [{| intrusion := None; spurious := true |}])).
  - reflexivity.
  - cbn. lia.
  - reflexivity.
Defined.

(** ** Sequences of calls *)

Section Sequences.
Context {T : Type} `{Scalar T} {L : Lawful T}.

Lemma max_not_below (v c : T) : less (std_max v c) c = false.
Proof.
  unfold std_max. destruct (less v c) eqn:E; [apply less_irrefl | exact E].
Qed.

(** Whatever the candidates, a function that behaves as fetch-max when run
    alone never lowers the value of the object. *)
Lemma run_calls_monotone (good : T -> Prop)
      (f : T -> memory_order -> M T T) (fuel : nat) :
  (forall v m w, good (cell w) -> calm (sched w) = true ->
                 (length (sched w) < fuel)%nat ->
                 exists w', f v m w = Returned (cell w, w') /\
                            cell w' = std_max v (cell w) /\ settled w w') ->
  forall calls w,
    good (cell w) -> Forall good (map fst calls) ->
    calm (sched w) = true -> (length (sched w) < fuel)%nat ->
    exists h w', run_calls f calls w = Returned (h, w') /\
                 length h = length calls /\
                 Forall (fun p => less (snd p) (fst p) = false) h.
Proof.
  intros Hf calls. induction calls as [|[v m] rest IH]; intros w G Gs C F.
  - exists [], w. repeat split. constructor.
  - cbn [map fst] in Gs. inversion Gs as [|? ? Gv Gr]; subst.
    destruct (Hf v m w G C F) as (w1 & A & A1 & A2 & A3).
    destruct (IH w1) as (h & w' & R & R1 & R2).
    + rewrite A1. unfold std_max. destruct (less v (cell w)); assumption.
    + exact Gr.
    + exact A2.
    + lia.
    + exists ((cell w, cell w1) :: h), w'.
      cbn [run_calls]. unfold bind, peek, ret. rewrite A, R.
      split; [reflexivity|]. split; [cbn; lia|].
      constructor; [|exact R2]. cbn [fst snd]. rewrite A1.
      apply max_not_below.
Qed.

End Sequences.

(** C7: run alone, a sequence of calls of one strategy (strong, weak or
    smart) whose candidates never increase leaves after each call a value
    that is not below the value before that call. *)
Theorem repeated_fetch_max_never_decreases
        {T : Type} `{Scalar T} `{FetchAdd T} {L : Lawful T}
        (fuel : nat) (calls : list (T * memory_order)) (w : world T) :
  calm (sched w) = true -> (length (sched w) < fuel)%nat ->
  non_increasing (map fst calls) ->
  Forall (fun t => plus t 0 = t) (cell w :: map fst calls) ->
  (exists h w', run_calls (atomic_fetch_max_strong fuel) calls w
                = Returned (h, w') /\ length h = length calls /\
                Forall (fun p => less (snd p) (fst p) = false) h) /\
  (exists h w', run_calls (atomic_fetch_max_weak fuel) calls w
                = Returned (h, w') /\ length h = length calls /\
                Forall (fun p => less (snd p) (fst p) = false) h) /\
  (exists h w', run_calls (atomic_fetch_max_smart fuel) calls w
                = Returned (h, w') /\ length h = length calls /\
                Forall (fun p => less (snd p) (fst p) = false) h).
Proof.
  intros C F _ P. inversion P as [|? ? Pc Pv]; subst.
  split; [|split].
  - apply (run_calls_monotone (fun _ => True) _ fuel); auto.
    + intros v m w0 _ C0 F0. apply strong_alone; assumption.
    + clear. induction (map fst calls); constructor; auto.
  - apply (run_calls_monotone (fun _ => True) _ fuel); auto.
    + intros v m w0 _ C0 F0. apply weak_alone; assumption.
    + clear. induction (map fst calls); constructor; auto.
  - apply (run_calls_monotone (fun t => plus t 0 = t) _ fuel); auto.
    intros v m w0 P0 C0 F0. apply smart_alone; assumption.
Qed.

Lemma repeated_fetch_max_never_decreases_witness :
  let calls := [(9, memory_order_seq_cst); (7, memory_order_release);
                (7, memory_order_relaxed); (-2, memory_order_acq_rel)] in
  let w := fresh 5 [{| intrusion := None; spurious := true |}] in
  (exists h w', run_calls (@atomic_fetch_max_strong Z int32_t 2) calls w
                = Returned (h, w') /\ length h = length calls /\
                Forall (fun p => @less Z int32_t (snd p) (fst p) = false) h) /\
  (exists h w', run_calls (@atomic_fetch_max_weak Z int32_t 2) calls w
                = Returned (h, w') /\ length h = length calls /\
                Forall (fun p => @less Z int32_t (snd p) (fst p) = false) h) /\
  (exists h w', run_calls (@atomic_fetch_max_smart Z int32_t
                             (int_fetch_add true 4) 2) calls w
                = Returned (h, w') /\ length h = length calls /\
                Forall (fun p => @less Z int32_t (snd p) (fst p) = false) h).
Proof.
  intros calls w.
  apply (@repeated_fetch_max_never_decreases Z int32_t (int_fetch_add true 4)
           (int_lawful true 4) 2 calls w).
  - reflexivity.
  - cbn. lia.
  - cbn. repeat split.
  - repeat constructor.
Defined.

(** ** Calls among other threads: what is logged *)

Section Logged.
Context {T : Type} `{Scalar T}.

Lemma added_app (w w' : world T) (evs : list (event T)) :
  log w' = log w ++ evs -> added w w' = evs.
Proof.
  intro E. unfold added. rewrite E, skipn_app, skipn_all, Nat.sub_diag.
  reflexivity.
Qed.

Lemma load_orders_app (l1 l2 : list (event T)) :
  load_orders (l1 ++ l2) = load_orders l1 ++ load_orders l2.
Proof.
  induction l1 as [|e l1 IH]; [reflexivity|].
  destruct e; cbn; rewrite IH; reflexivity.
Qed.

Lemma load_orders_cas (l : list (event T)) :
  forallb is_cas l = true -> load_orders l = [].
Proof.
  induction l as [|e l IH]; [reflexivity|].
  destruct e; cbn; intro E; try discriminate E. apply IH, E.
Qed.

Lemma fetch_adds_cas (l : list (event T)) :
  forallb is_cas l = true -> filter is_fetch_add l = [].
Proof.
  induction l as [|e l IH]; [reflexivity|].
  destruct e; cbn; intro E; try discriminate E. apply IH, E.
Qed.

Lemma arrive_log (w : world T) : log (snd (arrive w)) = log w.
Proof. unfold arrive. destruct (sched w); reflexivity. Qed.

Lemma arrive_sched (w : world T) :
  (length (sched (snd (arrive w))) <= length (sched w))%nat /\
  (sched w = [] \/
   (length (sched (snd (arrive w))) < length (sched w))%nat).
Proof.
  unfold arrive. destruct (sched w) eqn:E; cbn; rewrite ?E; cbn.
  - auto.
  - split; [lia | right; lia].
Qed.

Lemma arrive_inhabits (valid : T -> bool) (w : world T) :
  inhabits valid w = true -> inhabits valid (snd (arrive w)) = true.
Proof.
  unfold arrive, inhabits. destruct (sched w) as [|tk rest] eqn:E.
  - cbn. rewrite E. auto.
  - cbn. rewrite !andb_true_iff. intros (A & B & C).
    destruct (intrusion tk); auto.
Qed.

(** A load always returns, with the value it finds. *)
Lemma load_runs (m : memory_order) (w : world T) :
  exists w', load m w = Returned (observed w, w') /\
             cell w' = observed w /\
             sched w' = sched (snd (arrive w)) /\
             log w' = log w ++ [EvLoad m (observed w)].
Proof.
  unfold load, observed. pose proof (arrive_log w) as E.
  destruct (arrive w) as [sp w1]. cbn [snd] in *.
  eexists. split; [reflexivity|]. cbn. rewrite E. auto.
Qed.

(** A compare-and-swap always returns; it logs itself; when it fails, the
    refreshed expected value is the value of the object. *)
Lemma cas_runs (expected desired : T) (ms mf : memory_order) (w : world T) :
  exists ok t1 w',
    compare_exchange_weak expected desired ms mf w = Returned ((ok, t1), w') /\
    log w' = log w ++ [EvCas ms mf expected desired ok] /\
    sched w' = sched (snd (arrive w)) /\
    (ok = false -> t1 = cell w' /\ cell w' = observed w) /\
    (ok = true -> cell w' = desired) /\
    (sched w = [] -> equal (cell w) expected = true -> ok = true).
Proof.
  unfold compare_exchange_weak, observed.
  pose proof (arrive_log w) as E.
  assert (N : sched w = [] -> arrive w = (false, w)).
  { intro S0. unfold arrive. rewrite S0. reflexivity. }
  destruct (arrive w) as [sp w1] eqn:A. cbn [snd] in *.
  destruct (equal (cell w1) expected && negb sp) eqn:D.
  - do 3 eexists. split; [reflexivity|]. cbn. rewrite E.
    repeat split; auto; congruence.
  - do 3 eexists. split; [reflexivity|]. cbn. rewrite E.
    repeat split; auto; try congruence.
    intros S0 Q. specialize (N S0). injection N as -> ->.
    rewrite Q in D. discriminate D.
Qed.

(** The retry loop logs compare-and-swaps only. *)
Lemma retry_log (fuel : nat) (desired : T -> T) (m : memory_order) :
  forall t w r w',
    retry fuel desired t m w = Returned (r, w') ->
    exists evs, log w' = log w ++ evs /\ forallb is_cas evs = true.
Proof.
  induction fuel as [|fuel IH]; intros t w r w' R; [discriminate R|].
  cbn [retry] in R. unfold bind at 1 in R.
  destruct (cas_runs t (desired t) m m w)
    as (ok & t1 & w1 & A & A1 & _). rewrite A in R.
  destruct ok.
  - injection R as <- <-. eexists. split; [exact A1 | reflexivity].
  - destruct (IH _ _ _ _ R) as (evs & B & B1).
    exists (EvCas m m t (desired t) false :: evs). split.
    + rewrite B, A1, <- app_assoc. reflexivity.
    + exact B1.
Qed.

(** The strong strategy gives to [load] the ordering of its caller. *)
Lemma strong_load_order (fuel : nat) (v : T) (m : memory_order)
      (w : world T) (r : T) (w' : world T) :
  atomic_fetch_max_strong fuel v m w = Returned (r, w') ->
  load_orders (added w w') = [m].
Proof.
  unfold atomic_fetch_max_strong. unfold bind at 1.
  destruct (load_runs m w) as (w1 & A & _ & _ & A1). rewrite A.
  unfold bind.
  destruct (retry fuel (fun t => std_max v t) (observed w) m w1)
    as [[t w2]| | |] eqn:R; try discriminate.
  intro E. injection E as <- <-.
  destruct (retry_log _ _ _ _ _ _ _ R) as (evs & B & B1).
  rewrite (added_app w w2 (EvLoad m (observed w) :: evs)).
  - cbn. rewrite (load_orders_cas _ B1). reflexivity.
  - rewrite B, A1, <- app_assoc. reflexivity.
Qed.

(** The compare-and-swap branch of [atomic_fetch_max_explicit] gives to
    [load] the downgraded ordering, which is legal for a load. *)
Lemma explicit_load_order (cfg : build) (fuel : nat) (v : T)
      (m : memory_order) (w : world T) (r : T) (w' : world T) :
  is_integral = false ->
  atomic_fetch_max_explicit cfg fuel v m w = Returned (r, w') ->
  load_orders (added w w') = [load_order m] /\
  legal_for_load (load_order m) = true.
Proof.
  intros NI. unfold atomic_fetch_max_explicit. rewrite NI.
  unfold bind at 1. unfold bind at 1.
  destruct (load_runs (load_order m) w) as (w1 & A & _ & _ & A1). rewrite A.
  unfold bind.
  destruct (retry fuel (fun t => std_max v t) (observed w) m w1)
    as [[t w2]| | |] eqn:R; try discriminate.
  cbn. intro E. injection E as <- <-.
  destruct (retry_log _ _ _ _ _ _ _ R) as (evs & B & B1).
  split; [|apply load_order_legal].
  rewrite (added_app w w2 (EvLoad (load_order m) (observed w) :: evs)).
  - cbn. rewrite (load_orders_cas _ B1). reflexivity.
  - rewrite B, A1, <- app_assoc. reflexivity.
Qed.

End Logged.

(** C3: the claim asks that every compare-and-swap loop load with
    [load_order m].  The strong strategy of fetch_max.hpp does not: called
    with release on an [int32_t] holding 5, it gives release itself to
    [load], an ordering that is not legal for a load, where the claim asks
    for relaxed, and called with acq_rel it gives acq_rel where the claim
    asks for acquire; the loop of [atomic_fetch_max_explicit], on the same
    kind of call, loads with relaxed. *)
Theorem strong_loads_with_release :
  (exists w',
      @atomic_fetch_max_strong Z int32_t 1 9 memory_order_release (fresh 5 [])
      = Returned (5, w') /\
      load_orders (log w') = [memory_order_release]) /\
  legal_for_load memory_order_release = false /\
  load_order memory_order_release = memory_order_relaxed /\
  (exists w',
      @atomic_fetch_max_strong Z int32_t 1 9 memory_order_acq_rel (fresh 5 [])
      = Returned (5, w') /\
      load_orders (log w') = [memory_order_acq_rel]) /\
  legal_for_load memory_order_acq_rel = false /\
  load_order memory_order_acq_rel = memory_order_acquire /\
  (exists w',
      @atomic_fetch_max_explicit type_e type_e_scalar aarch64_build 1 smart
        memory_order_release (fresh weak [])
      = Returned (weak, w') /\
      load_orders (log w') = [memory_order_relaxed]).
Proof.
  split; [eexists; split; reflexivity|].
  split; [reflexivity|]. split; [reflexivity|].
  split; [eexists; split; reflexivity|].
  split; [reflexivity|]. split; [reflexivity|].
  eexists; split; reflexivity.
Qed.

(** The weak and smart strategies load as the strong strategy does. *)
Lemma weak_and_smart_load_with_release :
  (exists w',
      @atomic_fetch_max_weak Z int32_t 1 9 memory_order_release (fresh 5 [])
      = Returned (5, w') /\
      load_orders (log w') = [memory_order_release]) /\
  (exists w',
      @atomic_fetch_max_smart Z int32_t (int_fetch_add true 4) 1 9
        memory_order_release (fresh 5 [])
      = Returned (5, w') /\
      load_orders (log w') = [memory_order_release]).
Proof. split; eexists; split; reflexivity. Qed.

(** ** The weak and smart strategies when the candidate does not improve *)

Section NoImprovement.
Context {T : Type} `{Scalar T} {L : Lawful T}.

Lemma not_above_max (v c : T) : less c v = false -> std_max v c = c.
Proof.
  intro E. unfold std_max. destruct (less v c) eqn:E1; [reflexivity|].
  apply less_total; assumption.
Qed.

Lemma inhabits_moved (valid : T -> bool) (w1 w2 : world T) :
  inhabits valid w2 = true -> valid (cell w1) = true ->
  sched w1 = sched w2 -> inhabits valid w1 = true.
Proof.
  unfold inhabits. rewrite !andb_true_iff. intros [_ A] B E.
  rewrite E. auto.
Qed.

(** Among other threads the smart loop ends once the schedule is used up;
    it logs compare-and-swaps only, and one of them succeeded exactly when
    the function returns from inside the loop. *)
Lemma smart_loop_runs (valid : T -> bool) (v : T) (m : memory_order) :
  valid v = true ->
  forall fuel t w,
    inhabits valid w = true ->
    (length (sched w) + (if equal (cell w) t then 1 else 2) <= fuel)%nat ->
    exists r w' evs,
      smart_loop fuel v t m w = Returned (r, w') /\
      log w' = log w ++ evs /\
      forallb is_cas evs = true /\
      existsb is_won_cas evs
      = (match r with inl _ => true | inr _ => false end) /\
      inhabits valid w' = true.
Proof.
  intros Vv. induction fuel as [|fuel IH]; intros t w V F.
  { destruct (equal (cell w) t); lia. }
  cbn [smart_loop].
  destruct (negb (equal (std_max v t) t)).
  - unfold bind at 1.
    destruct (cas_runs t v m m w)
      as (ok & t1 & w1 & A & A1 & A2 & A3 & A4 & A5). rewrite A.
    destruct (arrive_sched w) as [S1 S2].
    pose proof (arrive_inhabits valid w V) as V1.
    destruct ok.
    + exists (inl t1), w1, [EvCas m m t v true].
      repeat split; auto.
      apply (inhabits_moved valid w1 (snd (arrive w))); auto.
      rewrite A4 by reflexivity. exact Vv.
    + destruct (A3 eq_refl) as [-> A6].
      assert (V2 : inhabits valid w1 = true).
      { apply (inhabits_moved valid w1 (snd (arrive w))); auto.
        rewrite A6. unfold observed.
        unfold inhabits in V1. apply andb_true_iff in V1. apply V1. }
      destruct (IH (cell w1) w1 V2) as (r & w' & evs & R & R1 & R2 & R3 & R4).
      * rewrite equal_refl, A2.
        destruct (equal (cell w) t) eqn:Q; destruct S2 as [S2|S2]; try lia.
        specialize (A5 S2 eq_refl). discriminate A5.
      * exists r, w', (EvCas m m t v false :: evs).
        split; [exact R|]. split.
        { rewrite R1, A1, <- app_assoc. reflexivity. }
        auto.
  - exists (inr t), w, []. rewrite app_nil_r. repeat split; auto.
Qed.

End NoImprovement.

(** C4: when the candidate is not above the value its load finds in the
    object, the weak strategy attempts no compare-and-swap: the load is the
    only operation it performs, the object keeps the value found, and that
    value is returned. *)
Theorem weak_skips_write
        {T : Type} `{Scalar T} {L : Lawful T}
        (fuel : nat) (v : T) (m : memory_order) (w : world T) :
  (0 < fuel)%nat -> less (observed w) v = false ->
  exists w', atomic_fetch_max_weak fuel v m w = Returned (observed w, w') /\
             cell w' = observed w /\
             added w w' = [EvLoad m (observed w)] /\
             existsb is_cas (added w w') = false.
Proof.
  intros F Le. unfold atomic_fetch_max_weak. unfold bind at 1.
  destruct (load_runs m w) as (w1 & A & A1 & _ & A2). rewrite A.
  destruct fuel as [|fuel]; [lia|]. unfold bind. cbn [weak_loop].
  rewrite (not_above_max _ _ Le), equal_refl. cbn.
  exists w1. rewrite (added_app w w1 _ A2). auto.
Qed.

Lemma weak_skips_write_witness :
  let w := fresh 9 [{| intrusion := Some 12; spurious := true |}] in
  exists w', @atomic_fetch_max_weak Z int32_t 1 12 memory_order_acq_rel w
             = Returned (12, w') /\
             cell w' = 12 /\
             added w w' = [EvLoad memory_order_acq_rel 12] /\
             existsb is_cas (added w w') = false.
Proof.
  intro w.
  apply (@weak_skips_write Z int32_t (int_lawful true 4) 1 12
           memory_order_acq_rel w).
  - lia.
  - reflexivity.
Defined.

(** Adding zero to a value of an integer type gives that value. *)
Lemma int_plus_zero (sg : bool) (bytes : Z) (t : Z) :
  In bytes [1; 2; 4; 8] -> in_range sg bytes t ->
  @plus Z (int_fetch_add sg bytes) t 0 = t.
Proof.
  intros W R. cbn [plus int_fetch_add]. rewrite Z.add_0_r.
  pose proof (of_bits_to_bits sg bytes W t R) as E.
  destruct (pow_split sg bytes W) as [P Q].
  cbn [of_bits to_bits int_scalar] in *.
  rewrite Z.mod_mod in E by lia. exact E.
Qed.

(** C5: among other threads and with enough fuel for the schedule, the smart
    strategy returns, and the dummy writes it has made are these: none when
    one of its compare-and-swaps succeeded; otherwise, under release, acq_rel
    or seq_cst, exactly one [fetch_add] of zero with the caller's ordering,
    which finds a value and leaves the same value in the object; and none
    under any other ordering. *)
Theorem smart_fence_repair
        {T : Type} `{Scalar T} `{FetchAdd T} {L : Lawful T}
        (valid : T -> bool) (fuel : nat) (v : T) (m : memory_order)
        (w : world T) :
  (forall t, valid t = true -> plus t 0 = t) ->
  valid v = true -> inhabits valid w = true ->
  (length (sched w) + 2 <= fuel)%nat ->
  exists r w',
    atomic_fetch_max_smart fuel v m w = Returned (r, w') /\
    if existsb is_won_cas (added w w')
    then filter is_fetch_add (added w w') = []
    else if wants_release m
         then exists c, filter is_fetch_add (added w w') = [EvFetchAdd 0 m c c] /\
                        cell w' = c
         else filter is_fetch_add (added w w') = [].
Proof.
  intros P Vv V F. unfold atomic_fetch_max_smart. unfold bind at 1.
  destruct (load_runs m w) as (w1 & A & A1 & A2 & A3). rewrite A.
  destruct (arrive_sched w) as [S1 _].
  assert (V1 : inhabits valid w1 = true).
  { pose proof (arrive_inhabits valid w V) as V0.
    apply (inhabits_moved valid w1 (snd (arrive w))); auto.
    rewrite A1. unfold observed, inhabits in *.
    apply andb_true_iff in V0. apply V0. }
  destruct (smart_loop_runs valid v m Vv fuel (observed w) w1 V1)
    as (r & w2 & evs & R & R1 & R2 & R3 & R4).
  { rewrite A1, equal_refl, A2. lia. }
  unfold bind at 1. rewrite R.
  assert (Lg : log w2 = log w ++ EvLoad m (observed w) :: evs).
  { rewrite R1, A3, <- app_assoc. reflexivity. }
  destruct r as [t|t].
  - exists t, w2. split; [reflexivity|].
    rewrite (added_app w w2 _ Lg). cbn. rewrite R3.
    apply fetch_adds_cas, R2.
  - fold (wants_release m). destruct (wants_release m) eqn:Wr.
    + unfold bind, fetch_add.
      pose proof (arrive_log w2) as E2.
      pose proof (arrive_inhabits valid w2 R4) as V3.
      destruct (arrive w2) as [sp w3]. cbn [snd] in *.
      assert (Pc : plus (cell w3) 0 = cell w3).
      { apply P. unfold inhabits in V3. apply andb_true_iff in V3. apply V3. }
      eexists t, _. split; [reflexivity|].
      erewrite added_app.
      2:{ cbn. rewrite E2, Lg, <- app_assoc. cbn. reflexivity. }
      cbn. rewrite existsb_app, R3. cbn.
      rewrite filter_app, (fetch_adds_cas _ R2). cbn.
      exists (cell w3). rewrite Pc. auto.
    + exists t, w2. split; [reflexivity|].
      rewrite (added_app w w2 _ Lg). cbn. rewrite R3.
      apply fetch_adds_cas, R2.
Qed.

Lemma smart_fence_repair_witness :
  let w := fresh 5 [{| intrusion := None; spurious := false |};
                    {| intrusion := Some 12; spurious := false |}] in
  exists r w',
    @atomic_fetch_max_smart Z int32_t (int_fetch_add true 4) 4 9
      memory_order_release w = Returned (r, w') /\
    if existsb is_won_cas (added w w')
    then filter is_fetch_add (added w w') = []
    else if wants_release memory_order_release
         then exists c, filter is_fetch_add (added w w')
                        = [EvFetchAdd 0 memory_order_release c c] /\
                        cell w' = c
         else filter is_fetch_add (added w w') = [].
Proof.
  intro w.
  apply (@smart_fence_repair Z int32_t (int_fetch_add true 4) (int_lawful true 4)
           (fun t => (-2147483648 <=? t) && (t <? 2147483648))
           4 9 memory_order_release w).
  - intros t R. apply andb_true_iff in R as [R1 R2].
    apply Z.leb_le in R1. apply Z.ltb_lt in R2.
    apply int_plus_zero; cbn; [auto | lia].
  - reflexivity.
  - reflexivity.
  - cbn. lia.
Defined.

(** ** Contract violations *)

Lemma not_enumerator (m : memory_order) :
  is_enumerator m = false ->
  (m =? memory_order_relaxed) = false /\ (m =? memory_order_consume) = false /\
  (m =? memory_order_acquire) = false /\ (m =? memory_order_release) = false /\
  (m =? memory_order_acq_rel) = false /\ (m =? memory_order_seq_cst) = false.
Proof.
  unfold is_enumerator, enumerators. cbn [existsb].
  rewrite !orb_false_iff. tauto.
Qed.

Lemma width_check_sound (bytes : Z) :
  (bytes =? 8) || (bytes =? 4) || (bytes =? 2) || (bytes =? 1) = true ->
  In bytes [1; 2; 4; 8].
Proof.
  rewrite !orb_true_iff, !Z.eqb_eq. cbn. intuition auto.
Qed.

(** The integral branch of either entry point, built with assertions, when
    the width is unsupported or the ordering is none of the enumerators. *)
Lemma explicit_violation {T : Type} `{Scalar T}
      (cfg : build) (op : string) (v : T) (m : memory_order) (w : world T) :
  NDEBUG cfg = false ->
  ~ In sizeof [1; 2; 4; 8] \/ is_enumerator m = false ->
  (x <- (_ <- assert_ cfg ((sizeof =? 8) || (sizeof =? 4) ||
                           (sizeof =? 2) || (sizeof =? 1)) ;;
         DEF2 cfg "ld" op v m None) ;;
   read_local x) w = AssertionFailed.
Proof.
  intros N V. unfold bind at 1. unfold bind at 1. unfold assert_ at 1.
  rewrite N.
  destruct ((sizeof =? 8) || (sizeof =? 4) || (sizeof =? 2) || (sizeof =? 1))
    eqn:Wc; [|reflexivity].
  cbn [orb].
  destruct V as [V|V]; [elim V; apply width_check_sound, Wc|].
  destruct (not_enumerator m V) as (E0 & E1 & E2 & E3 & E4 & E5).
  unfold DEF2, DEF1, DEF0.
  rewrite E0, E1, E2, E3, E4, E5. cbn [orb].
  unfold bind, assert_. rewrite N. cbn [orb].
  destruct is_signed, (sizeof =? 8), (sizeof =? 4), (sizeof =? 2), (sizeof =? 1);
    reflexivity.
Qed.

(** C8, as the code has it: built with assertions (NDEBUG not defined),
    [atomic_fetch_max_explicit] and [atomic_fetch_min_explicit] on an
    integral type end in an assertion failure when the width is not 1, 2, 4
    or 8 bytes or the ordering is none of the six enumerators; the hardware
    strategy of fetch_max.hpp has no assertion: built without the
    instruction, or given an ordering that is none of the enumerators, it
    reaches [__builtin_unreachable()]. *)
Theorem contract_violations
        {T : Type} `{Scalar T}
        (cfg : build) (fuel : nat) (v : T) (m : memory_order) (w : world T)
        (cfg' : build) (vz : Z) (m' : memory_order) (wz : world Z) :
  is_integral = true -> NDEBUG cfg = false ->
  ~ In sizeof [1; 2; 4; 8] \/ is_enumerator m = false ->
  ARM_ARCH_8A cfg' = false \/ is_enumerator m' = false ->
  atomic_fetch_max_explicit cfg fuel v m w = AssertionFailed /\
  atomic_fetch_min_explicit cfg fuel v m w = AssertionFailed /\
  atomic_fetch_max_hardware cfg' vz m' wz = Undefined.
Proof.
  intros I N V V'. split; [|split].
  - unfold atomic_fetch_max_explicit. rewrite I.
    apply explicit_violation; assumption.
  - unfold atomic_fetch_min_explicit. rewrite I.
    apply explicit_violation; assumption.
  - unfold atomic_fetch_max_hardware.
    destruct (ARM_ARCH_8A cfg'); [|reflexivity].
    destruct V' as [V'|V']; [discriminate V'|].
    destruct (not_enumerator m' V') as (E0 & E1 & E2 & E3 & E4 & E5).
    rewrite E0, E1, E2, E3, E4, E5. reflexivity.
Qed.

Lemma contract_violations_witness :
  @atomic_fetch_max_explicit Z (int_scalar true 16) aarch64_build 1 9
    memory_order_relaxed (fresh 5 []) = AssertionFailed /\
  @atomic_fetch_min_explicit Z (int_scalar true 16) aarch64_build 1 9
    memory_order_relaxed (fresh 5 []) = AssertionFailed /\
  atomic_fetch_max_hardware aarch64_build 9 6 (fresh 5 []) = Undefined.
Proof.
  apply (@contract_violations Z (int_scalar true 16) aarch64_build 1 9
           memory_order_relaxed (fresh 5 []) aarch64_build 9 6 (fresh 5 [])).
  - reflexivity.
  - reflexivity.
  - left. cbn. intros [E|[E|[E|[E|[]]]]]; discriminate E.
  - right. reflexivity.
Defined.

(** C8 as stated fails: built for an architecture without the instruction,
    the hardware strategy does not end in an assertion failure. *)
Lemma hardware_without_instruction_no_assertion :
  atomic_fetch_max_hardware other_build 9 memory_order_relaxed (fresh 5 [])
  <> AssertionFailed.
Proof. discriminate. Qed.

(** * Further properties *)

(** ** The retry loops among other threads *)

Section AmongThreads.
Context {T : Type} `{Scalar T} {L : Lawful T}.

Lemma arrive_held (w : world T) :
  incl (held (snd (arrive w))) (held w).
Proof.
  unfold arrive, held. destruct (sched w) as [|tk rest] eqn:E; cbn [snd].
  - rewrite E. apply incl_refl.
  - cbn [cell sched intrusions flat_map]. fold (intrusions rest).
    destruct (intrusion tk) as [u|]; intros x [<-|I]; cbn; auto.
Qed.

Lemma observed_held (w : world T) : In (observed w) (held w).
Proof. apply arrive_held. left. reflexivity. Qed.

(** Among other threads the retry loop ends once the schedule is used up.
    It logs failed compare-and-swaps and then the one that succeeded, which
    found the returned value in the object and stored [desired] of it. *)
Lemma retry_runs (desired : T -> T) (m : memory_order) :
  forall fuel w,
    (length (sched w) < fuel)%nat ->
    exists r w' lost,
      retry fuel desired (cell w) m w = Returned (r, w') /\
      log w' = log w ++ lost ++ [EvCas m m r (desired r) true] /\
      forallb is_lost_cas lost = true /\
      forallb (is_cas_under m) lost = true /\
      cell w' = desired r /\
      In r (held w).
Proof.
  induction fuel as [|fuel IH]; intros w F; [lia|].
  cbn [retry]. unfold bind at 1, compare_exchange_weak.
  pose proof (arrive_held w) as Hd.
  pose proof (arrive_log w) as Lg.
  destruct (arrive_sched w) as [_ Sc].
  pose proof (arrive_nil w) as Nil.
  destruct (arrive w) as [sp w1]. cbn [snd] in *.
  destruct (equal (cell w1) (cell w) && negb sp) eqn:D.
  - exists (cell w), (record (EvCas m m (cell w) (desired (cell w)) true)
                             (store (desired (cell w)) w1)), [].
    cbn. rewrite Lg. repeat split; auto.
  - pose (w2 := record (EvCas m m (cell w) (desired (cell w)) false) w1).
    destruct (IH w2) as (r & w' & lost & R & R1 & R2 & R3 & R4 & R5).
    + destruct Sc as [Sc|Sc]; [|cbn; lia].
      injection (Nil Sc) as -> ->. rewrite equal_refl in D. discriminate D.
    + exists r, w', (EvCas m m (cell w) (desired (cell w)) false :: lost).
      split; [exact R|]. split.
      { rewrite R1. cbn. rewrite Lg, <- app_assoc. reflexivity. }
      cbn. rewrite !Z.eqb_refl, R2, R3. repeat split; auto.
      change (In r (held w)). apply Hd, R5.
Qed.

(** The weak loop among other threads: it logs compare-and-swaps under the
    caller's ordering, one of which succeeded exactly when the candidate
    improves on the returned value. *)
Lemma weak_loop_runs (v : T) (m : memory_order) :
  forall fuel w,
    (length (sched w) < fuel)%nat ->
    exists r w' evs,
      weak_loop fuel v (cell w) m w = Returned (r, w') /\
      log w' = log w ++ evs /\
      forallb (is_cas_under m) evs = true /\
      existsb is_won_cas evs = negb (equal (std_max v r) r) /\
      cell w' = std_max v r /\
      In r (held w).
Proof.
  induction fuel as [|fuel IH]; intros w F; [lia|].
  cbn [weak_loop].
  destruct (negb (equal (std_max v (cell w)) (cell w))) eqn:N.
  - unfold bind at 1, compare_exchange_weak.
    pose proof (arrive_held w) as Hd.
    pose proof (arrive_log w) as Lg.
    destruct (arrive_sched w) as [_ Sc].
    pose proof (arrive_nil w) as Nil.
    destruct (arrive w) as [sp w1]. cbn [snd] in *.
    destruct (equal (cell w1) (cell w) && negb sp) eqn:D.
    + exists (cell w), (record (EvCas m m (cell w) v true) (store v w1)),
             [EvCas m m (cell w) v true].
      cbn. rewrite Lg, N, !Z.eqb_refl. repeat split; auto.
      symmetry. apply improves_max, N.
    + pose (w2 := record (EvCas m m (cell w) v false) w1).
      destruct (IH w2) as (r & w' & evs & R & R1 & R2 & R3 & R4 & R5).
      * destruct Sc as [Sc|Sc]; [|cbn; lia].
        injection (Nil Sc) as -> ->. rewrite equal_refl in D. discriminate D.
      * exists r, w', (EvCas m m (cell w) v false :: evs).
        split; [exact R|]. split.
        { rewrite R1. cbn. rewrite Lg, <- app_assoc. reflexivity. }
        cbn. rewrite !Z.eqb_refl, R2, R3. repeat split; auto.
        change (In r (held w)). apply Hd, R5.
  - exists (cell w), w, []. rewrite app_nil_r. cbn. rewrite N.
    repeat split; auto.
    symmetry. apply no_improvement_max, N.
Qed.

End AmongThreads.

Lemma held_after_load {T : Type} `{Scalar T} (w w1 : world T) :
  cell w1 = observed w -> sched w1 = sched (snd (arrive w)) ->
  incl (held w1) (held w).
Proof.
  intros C S1. unfold held at 1. rewrite C, S1. apply arrive_held.
Qed.

(** X1: among other threads, with fuel for the schedule, the strong strategy
    returns; it has made one load, then failed compare-and-swaps, then one
    compare-and-swap that succeeded, even when the candidate does not
    improve; it returns the value that compare-and-swap found, a value the
    object held or another thread stored, and leaves the maximum of it and
    the candidate. *)
Theorem strong_among_threads
        {T : Type} `{Scalar T} {L : Lawful T}
        (fuel : nat) (v : T) (m : memory_order) (w : world T) :
  (length (sched w) < fuel)%nat ->
  exists r w' lost,
    atomic_fetch_max_strong fuel v m w = Returned (r, w') /\
    added w w' = EvLoad m (observed w) :: lost
                 ++ [EvCas m m r (std_max v r) true] /\
    forallb is_lost_cas lost = true /\
    forallb (is_cas_under m) lost = true /\
    cell w' = std_max v r /\
    In r (held w).
Proof.
  intro F. unfold atomic_fetch_max_strong. unfold bind at 1.
  destruct (load_runs m w) as (w1 & A & A1 & A2 & A3). rewrite A.
  destruct (arrive_sched w) as [S1 _].
  destruct (retry_runs (fun t => std_max v t) m fuel w1)
    as (r & w' & lost & R & R1 & R2 & R3 & R4 & R5).
  { rewrite A2. lia. }
  rewrite A1 in R. unfold bind. rewrite R.
  exists r, w', lost. split; [reflexivity|]. split.
  { apply added_app. rewrite R1, A3, <- app_assoc. reflexivity. }
  repeat split; auto.
  apply (held_after_load w w1 A1 A2), R5.
Qed.

Lemma strong_among_threads_witness :
  let w := fresh 5 [{| intrusion := None; spurious := false |};
                    {| intrusion := Some 12; spurious := false |};
                    {| intrusion := None; spurious := true |}] in
  exists r w' lost,
    @atomic_fetch_max_strong Z int32_t 4 9 memory_order_seq_cst w
    = Returned (r, w') /\
    added w w' = EvLoad memory_order_seq_cst (observed w) :: lost
                 ++ [EvCas memory_order_seq_cst memory_order_seq_cst r
                           (@std_max Z int32_t 9 r) true] /\
    forallb is_lost_cas lost = true /\
    forallb (is_cas_under memory_order_seq_cst) lost = true /\
    cell w' = @std_max Z int32_t 9 r /\
    In r (held w).
Proof.
  intro w.
  apply (@strong_among_threads Z int32_t (int_lawful true 4) 4 9
           memory_order_seq_cst w).
  cbn. lia.
Defined.

(** X2: among other threads, with fuel for the schedule, the weak strategy
    returns a value the object held or another thread stored and leaves the
    maximum of it and the candidate; after its load it has made only
    compare-and-swaps under the caller's ordering, and one of them succeeded
    exactly when the candidate improves on the returned value. *)
Theorem weak_among_threads
        {T : Type} `{Scalar T} {L : Lawful T}
        (fuel : nat) (v : T) (m : memory_order) (w : world T) :
  (length (sched w) < fuel)%nat ->
  exists r w' evs,
    atomic_fetch_max_weak fuel v m w = Returned (r, w') /\
    added w w' = EvLoad m (observed w) :: evs /\
    forallb (is_cas_under m) evs = true /\
    existsb is_won_cas evs = negb (equal (std_max v r) r) /\
    cell w' = std_max v r /\
    In r (held w).
Proof.
  intro F. unfold atomic_fetch_max_weak. unfold bind at 1.
  destruct (load_runs m w) as (w1 & A & A1 & A2 & A3). rewrite A.
  destruct (arrive_sched w) as [S1 _].
  destruct (weak_loop_runs v m fuel w1)
    as (r & w' & evs & R & R1 & R2 & R3 & R4 & R5).
  { rewrite A2. lia. }
  rewrite A1 in R. unfold bind. rewrite R.
  exists r, w', evs. split; [reflexivity|]. split.
  { apply added_app. rewrite R1, A3, <- app_assoc. reflexivity. }
  repeat split; auto.
  apply (held_after_load w w1 A1 A2), R5.
Qed.

Lemma weak_among_threads_witness :
  let w := fresh 5 [{| intrusion := None; spurious := false |};
                    {| intrusion := Some 7; spurious := false |};
                    {| intrusion := None; spurious := true |}] in
  exists r w' evs,
    @atomic_fetch_max_weak Z int32_t 4 9 memory_order_acquire w
    = Returned (r, w') /\
    added w w' = EvLoad memory_order_acquire (observed w) :: evs /\
    forallb (is_cas_under memory_order_acquire) evs = true /\
    existsb is_won_cas evs = negb (@equal Z int32_t (@std_max Z int32_t 9 r) r) /\
    cell w' = @std_max Z int32_t 9 r /\
    In r (held w).
Proof.
  intro w.
  apply (@weak_among_threads Z int32_t (int_lawful true 4) 4 9
           memory_order_acquire w).
  cbn. lia.
Defined.

(** X3: among other threads, with fuel for the schedule, the
    compare-and-swap branch of [atomic_fetch_max_explicit] and of
    [atomic_fetch_min_explicit] returns a value the object held or another
    thread stored and leaves the maximum, or minimum, of it and the
    candidate; the call makes exactly one load, with the downgraded
    ordering, which is legal for a load. *)
Theorem explicit_loop_among_threads
        {T : Type} `{Scalar T} {L : Lawful T}
        (cfg : build) (fuel : nat) (v : T) (m : memory_order) (w : world T) :
  is_integral = false -> (length (sched w) < fuel)%nat ->
  (exists r w',
      atomic_fetch_max_explicit cfg fuel v m w = Returned (r, w') /\
      cell w' = std_max v r /\ In r (held w) /\
      load_orders (added w w') = [load_order m]) /\
  (exists r w',
      atomic_fetch_min_explicit cfg fuel v m w = Returned (r, w') /\
      cell w' = std_min v r /\ In r (held w) /\
      load_orders (added w w') = [load_order m]) /\
  legal_for_load (load_order m) = true.
Proof.
  intros NI F.
  destruct (load_runs (load_order m) w) as (w1 & A & A1 & A2 & A3).
  destruct (arrive_sched w) as [S1 _].
  assert (Ld : forall r lost,
             forallb is_lost_cas lost = true ->
             forallb (is_cas_under m) lost = true ->
             load_orders (EvLoad (load_order m) (observed w) :: lost
                          ++ [EvCas m m r (std_max v r) true])
             = [load_order m] /\
             load_orders (EvLoad (load_order m) (observed w) :: lost
                          ++ [EvCas m m r (std_min v r) true])
             = [load_order m]).
  { intros r lost _ U. cbn. rewrite !load_orders_app.
    assert (C : forallb is_cas lost = true).
    { clear - U. induction lost as [|e l IH]; [reflexivity|].
      destruct e; cbn in *; try discriminate U.
      apply andb_true_iff in U. apply IH, U. }
    rewrite (load_orders_cas _ C). auto. }
  split; [|split; [|apply load_order_legal]].
  - unfold atomic_fetch_max_explicit. rewrite NI.
    unfold bind at 1. unfold bind at 1. rewrite A.
    destruct (retry_runs (fun t => std_max v t) m fuel w1)
      as (r & w' & lost & R & R1 & R2 & R3 & R4 & R5).
    { rewrite A2. lia. }
    rewrite A1 in R. unfold bind. rewrite R.
    exists r, w'. split; [reflexivity|]. split; [exact R4|]. split.
    { apply (held_after_load w w1 A1 A2), R5. }
    erewrite added_app.
    2:{ rewrite R1, A3, <- app_assoc. reflexivity. }
    apply (Ld r lost R2 R3).
  - unfold atomic_fetch_min_explicit. rewrite NI.
    unfold bind at 1. unfold bind at 1. rewrite A.
    destruct (retry_runs (fun t => std_min v t) m fuel w1)
      as (r & w' & lost & R & R1 & R2 & R3 & R4 & R5).
    { rewrite A2. lia. }
    rewrite A1 in R. unfold bind. rewrite R.
    exists r, w'. split; [reflexivity|]. split; [exact R4|]. split.
    { apply (held_after_load w w1 A1 A2), R5. }
    erewrite added_app.
    2:{ rewrite R1, A3, <- app_assoc. reflexivity. }
    apply (Ld r lost R2 R3).
Qed.

Lemma explicit_loop_among_threads_witness :
  let w := fresh smart [{| intrusion := None; spurious := false |};
                        {| intrusion := Some hardware; spurious := false |}] in
  (exists r w',
      @atomic_fetch_max_explicit type_e type_e_scalar aarch64_build 3 weak
        memory_order_acq_rel w = Returned (r, w') /\
      cell w' = @std_max type_e type_e_scalar weak r /\ In r (held w) /\
      load_orders (added w w') = [load_order memory_order_acq_rel]) /\
  (exists r w',
      @atomic_fetch_min_explicit type_e type_e_scalar aarch64_build 3 weak
        memory_order_acq_rel w = Returned (r, w') /\
      cell w' = @std_min type_e type_e_scalar weak r /\ In r (held w) /\
      load_orders (added w w') = [load_order memory_order_acq_rel]) /\
  legal_for_load (load_order memory_order_acq_rel) = true.
Proof.
  intro w.
  apply (@explicit_loop_among_threads type_e type_e_scalar type_e_lawful
           aarch64_build 3 weak memory_order_acq_rel w).
  - reflexivity.
  - cbn. lia.
Defined.

(** ** How the implementations relate *)






(** X6: built for AArch64, the hardware strategy of fetch_max.hpp and
    [atomic_fetch_max_explicit] on [int32_t] are the same function under each
    of the six orderings: whatever the object holds and whatever the other
    threads do, both execute the same instruction and end the same way. *)
Theorem hardware_is_explicit_int32
        (cfg : build) (fuel : nat) (v : Z) (m : memory_order) (w : world Z) :
  ARM_ARCH_8A cfg = true -> is_enumerator m = true ->
  atomic_fetch_max_hardware cfg v m w
  = @atomic_fetch_max_explicit Z int32_t cfg fuel v m w.
Proof.
  intros A E.
  unfold atomic_fetch_max_hardware, atomic_fetch_max_explicit. rewrite A.
  unfold DEF2, DEF1, DEF0, int32_t.
  cbn [is_integral is_signed sizeof int_scalar].
  destruct (is_enumerator_cases m E) as [->|[->|[->|[->|[->| ->]]]]];
    cbv [memory_order_relaxed memory_order_consume memory_order_acquire
         memory_order_release memory_order_acq_rel memory_order_seq_cst];
    simpl (_ =? _); cbn [orb append];
    unfold bind, assert_, read_local, ret; cbn [orb];
    match goal with
    | |- context [asm_volatile ?t v w] =>
        destruct (asm_volatile t v w) as [[x w1]| | |]; reflexivity
    end.
Qed.

Lemma hardware_is_explicit_int32_witness :
  let w := fresh (-7) [{| intrusion := Some 40; spurious := true |}] in
  atomic_fetch_max_hardware aarch64_build 9 memory_order_consume w
  = @atomic_fetch_max_explicit Z int32_t aarch64_build 0 9
      memory_order_consume w.
Proof.
  intro w.
  apply (hardware_is_explicit_int32 aarch64_build 0 9 memory_order_consume w).
  - reflexivity.
  - reflexivity.
Defined.

(** ** The instruction branch among other threads *)

(** One max or min instruction of the right width and signedness: it acts on
    the value it finds, whatever was stored just before it. *)
Lemma asm_int_among (sg : bool) (bytes : Z) (template : string)
      (i : lse_insn) (v : Z) (w : world Z) :
  In bytes [1; 2; 4; 8] ->
  assemble template = Some i ->
  i_datasize i = 8 * bytes -> i_signed i = sg ->
  in_range sg bytes v -> in_range sg bytes (observed w) ->
  exists w',
    @asm_volatile Z (int_scalar sg bytes) template v w
    = Returned (observed w, w') /\
    cell w' = (if i_max i then Z.max (observed w) v else Z.min (observed w) v) /\
    log w' = log w ++ [EvAsm template (observed w) (cell w')].
Proof.
  intros W A D Sg Rv Rc.
  unfold asm_volatile. rewrite A.
  pose proof (arrive_log w) as Lg. unfold observed in *.
  destruct (arrive w) as [sp w1]. cbn [snd] in *.
  rewrite D. cbn [sizeof int_scalar].
  rewrite Z.gtb_ltb, Z.ltb_irrefl.
  pose proof (to_bits_small sg bytes W (cell w1)) as Bc.
  pose proof (to_bits_small sg bytes W v) as Bv.
  rewrite !Z.mod_small by assumption.
  assert (R : lse_result i (@to_bits Z (int_scalar sg bytes) (cell w1))
                         (@to_bits Z (int_scalar sg bytes) v)
              = @to_bits Z (int_scalar sg bytes)
                         (if i_max i then Z.max (cell w1) v
                          else Z.min (cell w1) v)).
  { unfold lse_result. rewrite D, Sg.
    rewrite !(key_to_bits sg bytes W) by assumption.
    destruct (i_max i); destruct (Z.gtb_spec (cell w1) v).
    - rewrite Z.max_l by lia. reflexivity.
    - rewrite Z.max_r by lia. reflexivity.
    - rewrite Z.min_r by lia. reflexivity.
    - rewrite Z.min_l by lia. reflexivity. }
  rewrite R, Z.sub_diag, Z.add_0_l.
  assert (Rm : in_range sg bytes (if i_max i then Z.max (cell w1) v
                                  else Z.min (cell w1) v)).
  { destruct (i_max i); [apply Z.max_case | apply Z.min_case]; assumption. }
  rewrite !(of_bits_to_bits sg bytes W) by assumption.
  eexists. split; [reflexivity|]. cbn. rewrite Lg. auto.
Qed.

(** X7: on an integer type of 1, 2, 4 or 8 bytes under each of the six
    orderings, [atomic_fetch_max_explicit] and [atomic_fetch_min_explicit]
    never retry: whatever the other threads do, and with no fuel at all, the
    call is one instruction, the signed or unsigned max or min of the
    operand's width whose acquire and release bits are those the ordering
    asks for; it returns the value the instruction found and leaves the
    maximum, or minimum, of it and the candidate. *)
Theorem explicit_int_among_threads
        (cfg : build) (sg mx : bool) (bytes : Z) (fuel : nat)
        (v : Z) (m : memory_order) (w : world Z) :
  In bytes [1; 2; 4; 8] -> is_enumerator m = true ->
  in_range sg bytes v -> in_range sg bytes (observed w) ->
  exists template w',
    (if mx
     then @atomic_fetch_max_explicit Z (int_scalar sg bytes) cfg fuel v m w
     else @atomic_fetch_min_explicit Z (int_scalar sg bytes) cfg fuel v m w)
    = Returned (observed w, w') /\
    cell w' = (if mx then Z.max (observed w) v else Z.min (observed w) v) /\
    added w w' = [EvAsm template (observed w) (cell w')] /\
    assemble template = Some (expected_insn sg mx m bytes).
Proof.
  intros W E Rv Rc.
  destruct (DEF2_int cfg sg mx bytes m W E) as (template & A & D).
  destruct (asm_int_among sg bytes template _ v w W A eq_refl eq_refl Rv Rc)
    as (w' & X & X1 & X2).
  exists template, w'.
  assert (Run : (x <- (_ <- assert_ cfg ((bytes =? 8) || (bytes =? 4) ||
                                         (bytes =? 2) || (bytes =? 1)) ;;
                       @DEF2 Z (int_scalar sg bytes) cfg "ld"
                             (if mx then "max" else "min") v m None) ;;
                 read_local x) w = Returned (observed w, w')).
  { rewrite D. unfold bind, assert_. rewrite (width_check bytes W).
    cbn [orb]. rewrite X. reflexivity. }
  split; [destruct mx; exact Run|].
  split; [exact X1|]. split; [apply added_app, X2 | exact A].
Qed.

Lemma explicit_int_among_threads_witness :
  let w := fresh 200 [{| intrusion := Some 17; spurious := true |}] in
  exists template w',
    @atomic_fetch_min_explicit Z (int_scalar false 1) aarch64_build 0 255
      memory_order_release w
    = Returned (observed w, w') /\
    cell w' = Z.min (observed w) 255 /\
    added w w' = [EvAsm template (observed w) (cell w')] /\
    assemble template = Some (expected_insn false false memory_order_release 1).
Proof.
  intro w.
  apply (explicit_int_among_threads aarch64_build false false 1 0 255
           memory_order_release w).
  - cbn. auto.
  - reflexivity.
  - cbn. lia.
  - cbn. lia.
Defined.

(** ** Violations when assertions are compiled out *)





(** ** The value a sequence of calls leaves *)

Section Maximum.
Context {T : Type} `{Scalar T} {L : Lawful T}.

Lemma run_calls_final (good : T -> Prop)
      (f : T -> memory_order -> M T T) (fuel : nat) :
  (forall v m w, good (cell w) -> calm (sched w) = true ->
                 (length (sched w) < fuel)%nat ->
                 exists w', f v m w = Returned (cell w, w') /\
                            cell w' = std_max v (cell w) /\ settled w w') ->
  forall calls w,
    good (cell w) -> Forall good (map fst calls) ->
    calm (sched w) = true -> (length (sched w) < fuel)%nat ->
    exists h w', run_calls f calls w = Returned (h, w') /\
                 cell w' = fold_left (fun c v => std_max v c)
                                     (map fst calls) (cell w).
Proof.
  intros Hf calls. induction calls as [|[v m] rest IH]; intros w G Gs C F.
  - exists [], w. split; reflexivity.
  - cbn [map fst] in Gs. inversion Gs as [|? ? Gv Gr]; subst.
    destruct (Hf v m w G C F) as (w1 & A & A1 & A2 & A3).
    destruct (IH w1) as (h & w' & R & R1).
    + rewrite A1. unfold std_max. destruct (less v (cell w)); assumption.
    + exact Gr.
    + exact A2.
    + lia.
    + exists ((cell w, cell w1) :: h), w'.
      cbn [run_calls]. unfold bind, peek, ret. rewrite A, R.
      split; [reflexivity|]. rewrite R1, A1. reflexivity.
Qed.

End Maximum.

Lemma fold_std_max_int (sg : bool) (bytes : Z) (vs : list Z) :
  forall c,
    fold_left (fun c v => @std_max Z (int_scalar sg bytes) v c) vs c
    = maximum_of c vs.
Proof.
  unfold maximum_of. induction vs as [|v vs IH]; intro c; [reflexivity|].
  cbn [fold_left]. rewrite std_max_int. apply IH.
Qed.

Lemma maximum_of_perm (vs vs' : list Z) :
  Permutation vs vs' -> forall c, maximum_of c vs = maximum_of c vs'.
Proof.
  unfold maximum_of. induction 1 as [|x l l' P IH|x y l|l1 l2 l3 P1 IH1 P2 IH2];
    intro c; cbn [fold_left].
  - reflexivity.
  - apply IH.
  - f_equal. lia.
  - rewrite IH1. apply IH2.
Qed.

(** X9: run alone on an integer object, a sequence of calls of the strong,
    the weak or the smart strategy leaves the largest of the initial value
    and all the candidates, so the same candidates offered in any other order
    leave the same value. *)
Theorem calls_leave_the_maximum
        (sg : bool) (bytes : Z) (fuel : nat)
        (calls calls' : list (Z * memory_order)) (w : world Z) :
  In bytes [1; 2; 4; 8] ->
  calm (sched w) = true -> (length (sched w) < fuel)%nat ->
  in_range sg bytes (cell w) ->
  Forall (in_range sg bytes) (map fst calls) ->
  Permutation (map fst calls) (map fst calls') ->
  Forall (fun f : Z -> memory_order -> M Z Z =>
            exists h w1 h' w2,
              run_calls f calls w = Returned (h, w1) /\
              cell w1 = maximum_of (cell w) (map fst calls) /\
              run_calls f calls' w = Returned (h', w2) /\
              cell w2 = cell w1)
         [@atomic_fetch_max_strong Z (int_scalar sg bytes) fuel;
          @atomic_fetch_max_weak Z (int_scalar sg bytes) fuel;
          @atomic_fetch_max_smart Z (int_scalar sg bytes)
                                  (int_fetch_add sg bytes) fuel].
Proof.
  intros W C F Rc Rs P.
  assert (Rs' : Forall (in_range sg bytes) (map fst calls')).
  { eapply Permutation_Forall; eassumption. }
  assert (K : forall f : Z -> memory_order -> M Z Z,
             (forall v m w0, in_range sg bytes (cell w0) ->
                             calm (sched w0) = true ->
                             (length (sched w0) < fuel)%nat ->
                             exists w', f v m w0 = Returned (cell w0, w') /\
                                        cell w' = @std_max Z (int_scalar sg bytes)
                                                           v (cell w0) /\
                                        settled w0 w') ->
             exists h w1 h' w2,
               run_calls f calls w = Returned (h, w1) /\
               cell w1 = maximum_of (cell w) (map fst calls) /\
               run_calls f calls' w = Returned (h', w2) /\
               cell w2 = cell w1).
  { intros f Hf.
    destruct (@run_calls_final Z (int_scalar sg bytes) (in_range sg bytes)
                f fuel Hf calls w Rc Rs C F) as (h & w1 & A & A1).
    destruct (@run_calls_final Z (int_scalar sg bytes) (in_range sg bytes)
                f fuel Hf calls' w Rc Rs' C F) as (h' & w2 & B & B1).
    rewrite fold_std_max_int in A1, B1.
    exists h, w1, h', w2. repeat split; auto.
    rewrite A1, B1. symmetry. apply maximum_of_perm, P. }
  repeat constructor; apply K; intros v m w0 R0 C0 F0.
  - apply (@strong_alone Z (int_scalar sg bytes) (int_lawful sg bytes));
      assumption.
  - apply (@weak_alone Z (int_scalar sg bytes) (int_lawful sg bytes));
      assumption.
  - apply (@smart_alone Z (int_scalar sg bytes) (int_lawful sg bytes));
      try assumption.
    apply int_plus_zero; assumption.
Qed.

Lemma calls_leave_the_maximum_witness :
  let calls := [(9, memory_order_seq_cst); (-4, memory_order_release);
                (30, memory_order_relaxed)] in
  let calls' := [(30, memory_order_acquire); (9, memory_order_relaxed);
                 (-4, memory_order_acq_rel)] in
  let w := fresh 5 [{| intrusion := None; spurious := true |}] in
  Forall (fun f : Z -> memory_order -> M Z Z =>
            exists h w1 h' w2,
              run_calls f calls w = Returned (h, w1) /\
              cell w1 = maximum_of (cell w) (map fst calls) /\
              run_calls f calls' w = Returned (h', w2) /\
              cell w2 = cell w1)
         [@atomic_fetch_max_strong Z (int_scalar true 4) 2;
          @atomic_fetch_max_weak Z (int_scalar true 4) 2;
          @atomic_fetch_max_smart Z (int_scalar true 4)
                                  (int_fetch_add true 4) 2].
Proof.
  intros calls calls' w.
  apply (calls_leave_the_maximum true 4 2 calls calls' w).
  - cbn. auto.
  - reflexivity.
  - cbn. lia.
  - cbn. lia.
  - repeat constructor; cbn; lia.
  - cbn. apply Permutation_sym, (Permutation_cons_app [9; -4] []).
    apply Permutation_refl.
Defined.

(** ** Among threads that only raise the value *)

Lemma rising_held (s : list (tick Z)) :
  forall c x, rising c s -> In x (c :: intrusions s) -> c <= x.
Proof.
  induction s as [|tk rest IH]; intros c x R I.
  - destruct I as [<-|[]]. lia.
  - cbn [rising] in R. cbn [intrusions flat_map] in I.
    fold (intrusions rest) in I.
    destruct (intrusion tk) as [u|].
    + destruct R as [R1 R2]. destruct I as [<-|I]; [lia|].
      specialize (IH u x R2 I). lia.
    + apply (IH c x R I).
Qed.

(** X10: when the other threads only ever raise the value of an integer
    object, the strong and the weak strategy, with fuel for the schedule,
    return a value that is not below the value the object held when the call
    began, and leave a value that is below neither that value nor the
    candidate. *)
Theorem fetch_max_among_raisers
        (sg : bool) (bytes : Z) (fuel : nat) (v : Z) (m : memory_order)
        (w : world Z) :
  rising (cell w) (sched w) -> (length (sched w) < fuel)%nat ->
  (exists r w',
      @atomic_fetch_max_strong Z (int_scalar sg bytes) fuel v m w
      = Returned (r, w') /\
      cell w <= r /\ cell w <= cell w' /\ v <= cell w') /\
  (exists r w',
      @atomic_fetch_max_weak Z (int_scalar sg bytes) fuel v m w
      = Returned (r, w') /\
      cell w <= r /\ cell w <= cell w' /\ v <= cell w').
Proof.
  intros R F. split.
  - destruct (@strong_among_threads Z (int_scalar sg bytes) (int_lawful sg bytes)
                fuel v m w F) as (r & w' & lost & A & _ & _ & _ & A1 & A2).
    rewrite std_max_int in A1.
    pose proof (rising_held (sched w) (cell w) r R A2).
    exists r, w'. split; [exact A|]. lia.
  - destruct (@weak_among_threads Z (int_scalar sg bytes) (int_lawful sg bytes)
                fuel v m w F) as (r & w' & evs & A & _ & _ & _ & A1 & A2).
    rewrite std_max_int in A1.
    pose proof (rising_held (sched w) (cell w) r R A2).
    exists r, w'. split; [exact A|]. lia.
Qed.

Lemma fetch_max_among_raisers_witness :
  let w := fresh 5 [{| intrusion := Some 6; spurious := false |};
                    {| intrusion := Some 8; spurious := true |};
                    {| intrusion := Some 20; spurious := false |}] in
  (exists r w',
      @atomic_fetch_max_strong Z (int_scalar true 4) 4 9 memory_order_relaxed w
      = Returned (r, w') /\
      cell w <= r /\ cell w <= cell w' /\ 9 <= cell w') /\
  (exists r w',
      @atomic_fetch_max_weak Z (int_scalar true 4) 4 9 memory_order_relaxed w
      = Returned (r, w') /\
      cell w <= r /\ cell w <= cell w' /\ 9 <= cell w').
Proof.
  intro w.
  apply (fetch_max_among_raisers true 4 4 9 memory_order_relaxed w).
  - cbn. lia.
  - cbn. lia.
Defined.

(** ** Names of the strategies *)

(** X11: [format] names each enumerator of [type_e] as its [switch] case
    does, the four names differ from one another and from the answer
    "what?", and "what?" is the answer for exactly the values that are not
    enumerators. *)
Theorem format_names (i j : type_e) (z : Z) :
  format_value (type_e_value i) = format i /\
  String.eqb (format i) (format j) = (type_e_value i =? type_e_value j) /\
  String.eqb (format i) "what?" = false /\
  format_value z = (if (0 <=? z) && (z <=? 3)
                    then format (type_e_of_value z) else "what?"%string).
Proof.
  split; [destruct i; reflexivity|].
  split; [destruct i, j; reflexivity|].
  split; [destruct i; reflexivity|].
  destruct (Z.leb_spec 0 z) as [Lo|Lo]; destruct (Z.leb_spec z 3) as [Hi|Hi];
    cbn [andb].
  - assert (E : z = 0 \/ z = 1 \/ z = 2 \/ z = 3) by lia.
    destruct E as [->|[->|[->| ->]]]; reflexivity.
  - unfold format_value, type_e_value.
    destruct (Z.eqb_spec z 0); [lia|]. destruct (Z.eqb_spec z 1); [lia|].
    destruct (Z.eqb_spec z 2); [lia|]. destruct (Z.eqb_spec z 3); [lia|].
    reflexivity.
  - unfold format_value, type_e_value.
    destruct (Z.eqb_spec z 0); [lia|]. destruct (Z.eqb_spec z 1); [lia|].
    destruct (Z.eqb_spec z 2); [lia|]. destruct (Z.eqb_spec z 3); [lia|].
    reflexivity.
  - lia.
Qed.
